(** * ara3d/array.h : a shallow embedding and its verified properties

    The header defines four cursor (iterator) kinds -- the raw element
    pointer [T*], [mem_stride_iterator] / [const_mem_stride_iterator],
    [func_array_iterator] and [const_strided_iterator] -- two bounded
    sequence bases ([const_array_base], [array_base]) and the concrete
    sequences built on them ([array_slice], [const_array_stride],
    [array_view], [const_array_view], [const_array_mem_stride],
    [array_mem_stride], [func_array], [array]).

    Modelling choices
    - [size_t] is a 64-bit unsigned integer: a [Z] reduced by [wrap];
      [ptrdiff_t] (the header's [__int64]) is its signed reading.
    - an address is a [size_t]; pointer arithmetic wraps like the machine's.
    - storage is a finite map from addresses to bytes; an access to an
      address outside it has no result ([None]).
    - a template class is a record, a template parameter is a parameter of
      the record, the duck-typed iterator interface is a type class.
    - a callable is a state-passing function, so that every invocation is
      observable. *)

From Stdlib Require Import ZArith Lia List Strings.Byte.
From stdpp Require Import base option list gmap.

Local Open Scope Z_scope.

(** ** Machine integers *)

Definition size_modulus : Z := 2 ^ 64.

(** Reduction of a mathematical integer to a [size_t]. *)
Definition wrap (z : Z) : Z := z mod size_modulus.

(** Conversion of a [size_t] to [ptrdiff_t] (two's complement). *)
Definition to_ptrdiff (z : Z) : Z :=
  if wrap z <? 2 ^ 63 then wrap z else wrap z - size_modulus.

Definition is_size_t (z : Z) : Prop := 0 <= z < size_modulus.

(** ** Storage *)

(** [storage]: the bytes that may be accessed; [blocks]: the live
    allocations made by [new[]] (base address to byte length);
    [released]: the base addresses handed to [delete[]], latest first. *)
Record Heap := mkHeap {
  storage : gmap Z byte;
  blocks : gmap Z Z;
  released : list Z
}.

Definition empty_heap : Heap := mkHeap ∅ ∅ [].

Fixpoint load_bytes (m : gmap Z byte) (a : Z) (n : nat) : option (list byte) :=
  match n with
  | O => Some []
  | S k =>
      match m !! a, load_bytes m (a + 1) k with
      | Some b, Some bs => Some (b :: bs)
      | _, _ => None
      end
  end.

Fixpoint store_bytes (m : gmap Z byte) (a : Z) (bs : list byte)
  : option (gmap Z byte) :=
  match bs with
  | [] => Some m
  | b :: bs' =>
      match m !! a with
      | Some _ => store_bytes (<[a:=b]> m) (a + 1) bs'
      | None => None
      end
  end.

(** Bytes put into (resp. taken out of) the map without any check: what
    the allocator does when it hands out (resp. takes back) a block. *)
Fixpoint map_bytes (m : gmap Z byte) (a : Z) (bs : list byte) : gmap Z byte :=
  match bs with
  | [] => m
  | b :: bs' => <[a:=b]> (map_bytes m (a + 1) bs')
  end.

Fixpoint unmap_bytes (m : gmap Z byte) (a : Z) (n : nat) : gmap Z byte :=
  match n with
  | O => m
  | S k => delete a (unmap_bytes m (a + 1) k)
  end.

(** ** Element types

    What the header needs of a [typename T]: its size, its object
    representation, and what default-initialisation does ([None]: nothing,
    as for scalar types; [Some d]: the default constructor leaves [d]). *)
Class Elem (T : Type) := {
  sizeof : Z;
  encode : T -> list byte;
  decode : list byte -> T;
  default_init : option T
}.

Class ElemLaws (T : Type) `{Elem T} := {
  sizeof_pos : 0 < sizeof;
  sizeof_small : sizeof < size_modulus;
  encode_length : forall v : T, Z.of_nat (length (encode v)) = sizeof;
  decode_encode : forall v : T, decode (encode v) = v
}.

(** Reading and writing an object of type [T] at an address. *)
Definition load (T : Type) `{Elem T} (h : Heap) (a : Z) : option T :=
  match load_bytes (storage h) a (Z.to_nat sizeof) with
  | Some bs => Some (decode bs)
  | None => None
  end.

Definition store {T : Type} `{Elem T} (h : Heap) (a : Z) (v : T) : option Heap :=
  match store_bytes (storage h) a (encode v) with
  | Some m => Some (mkHeap m (blocks h) (released h))
  | None => None
  end.

(** [unsigned char], the element type of the header's [buffer]. *)
Definition uchar := byte.

#[export] Instance uchar_elem : Elem uchar := {|
  sizeof := 1;
  encode := fun b => [b];
  decode := fun bs => match bs with b :: _ => b | [] => x00 end;
  default_init := None
|}.

(** A 16-bit unsigned integer, little endian. *)
Record uint16 := U16 { u16_lo : byte; u16_hi : byte }.

#[export] Instance uint16_elem : Elem uint16 := {|
  sizeof := 2;
  encode := fun v => [u16_lo v; u16_hi v];
  decode := fun bs =>
    match bs with
    | lo :: hi :: _ => U16 lo hi
    | _ => U16 x00 x00
    end;
  default_init := None
|}.

(** A class type whose default constructor zeroes its one byte. *)
Record zeroed := Zeroed { zeroed_val : byte }.

#[export] Instance zeroed_elem : Elem zeroed := {|
  sizeof := 1;
  encode := fun v => [zeroed_val v];
  decode := fun bs => match bs with b :: _ => Zeroed b | [] => Zeroed x00 end;
  default_init := Some (Zeroed x00)
|}.

(** ** The iterator interface

    The operations every iterator of the header offers, as the bounded
    sequences use them.  [W] is the state an access can depend on and
    change (the heap for storage-backed cursors, the callable's
    environment for computed ones), [T] the value type.  The postfix
    [operator++(int)] of the four iterator classes calls itself and never
    returns; nothing in the header calls it and it has no counterpart
    here: traversal uses the prefix form, as a range-based [for] does.
    [index_by_value] records the return type of [operator[]]:
    [value_type] itself ([true], function and strided cursors) or a
    reference into storage ([false], pointers and byte-stride cursors). *)
Class Cursor (W T C : Type) := {
  deref : C -> W -> option (T * W);          (* operator*        *)
  cur_eqb : C -> C -> bool;                  (* operator==       *)
  incr : C -> C;                             (* operator++()     *)
  add : C -> Z -> C;                         (* operator+(size_t)  *)
  add_assign : C -> Z -> C;                  (* operator+=(size_t) *)
  sub : C -> C -> option Z;                  (* operator-        *)
  index : C -> Z -> W -> option (T * W);     (* operator[] const *)
  index_by_value : bool
}.

#[global] Hint Mode Cursor - - ! : typeclass_instances.

(** [operator!=]. *)
Definition cur_neqb {W T C} `{Cursor W T C} (c d : C) : bool :=
  negb (cur_eqb c d).

(** Assignment through the reference a non-const [operator[]] returns. *)
Class MutCursor (W T C : Type) := {
  index_set : C -> Z -> T -> W -> option W
}.

#[global] Hint Mode MutCursor - - ! : typeclass_instances.

(** The conversion of an iterator to its read-only counterpart. *)
Class ToConst (C CC : Type) := to_const : C -> CC.

#[global] Hint Mode ToConst ! - : typeclass_instances.

(** *** Raw element pointers [T*] and [const T*] *)
Module ptr.
Record t (T : Type) := mk { addr : Z }.
Arguments mk {T} _.
Arguments addr {T} _.

Section ops.
Context {T : Type} `{Elem T}.

Definition deref (p : t T) (h : Heap) : option (T * Heap) :=
      match load T h (addr p) with
      | Some v => Some (v, h)
      | None => None
      end.
Definition eqb (p q : t T) : bool := addr p =? addr q.
Definition add (p : t T) (n : Z) : t T := mk (wrap (addr p + sizeof * n)).
Definition incr (p : t T) : t T := add p 1.
Definition sub (p q : t T) : option Z :=
      Some (Z.quot (to_ptrdiff (addr p - addr q)) sizeof).
Definition index (p : t T) (n : Z) (h : Heap) : option (T * Heap) :=
      deref (add p n) h.
Definition index_set (p : t T) (n : Z) (v : T) (h : Heap) : option Heap :=
      store h (addr (add p n)) v.
End ops.
End ptr.

Module const_ptr.
Record t (T : Type) := mk { addr : Z }.
Arguments mk {T} _.
Arguments addr {T} _.

Section ops.
Context {T : Type} `{Elem T}.

Definition deref (p : t T) (h : Heap) : option (T * Heap) :=
      match load T h (addr p) with
      | Some v => Some (v, h)
      | None => None
      end.
Definition eqb (p q : t T) : bool := addr p =? addr q.
Definition add (p : t T) (n : Z) : t T := mk (wrap (addr p + sizeof * n)).
Definition incr (p : t T) : t T := add p 1.
Definition sub (p q : t T) : option Z :=
      Some (Z.quot (to_ptrdiff (addr p - addr q)) sizeof).
Definition index (p : t T) (n : Z) (h : Heap) : option (T * Heap) :=
      deref (add p n) h.
End ops.
End const_ptr.

#[export] Instance ptr_cursor {T} `{Elem T} : Cursor Heap T (ptr.t T) := {|
  deref := ptr.deref; cur_eqb := ptr.eqb; incr := ptr.incr; add := ptr.add;
  add_assign := ptr.add; sub := ptr.sub; index := ptr.index;
  index_by_value := false
|}.

#[export] Instance ptr_mut {T} `{Elem T} : MutCursor Heap T (ptr.t T) := {|
  index_set := ptr.index_set
|}.

#[export] Instance const_ptr_cursor {T} `{Elem T}
  : Cursor Heap T (const_ptr.t T) := {|
  deref := const_ptr.deref; cur_eqb := const_ptr.eqb; incr := const_ptr.incr;
  add := const_ptr.add; add_assign := const_ptr.add; sub := const_ptr.sub;
  index := const_ptr.index; index_by_value := false
|}.

#[export] Instance ptr_to_const {T} : ToConst (ptr.t T) (const_ptr.t T) :=
  fun p => const_ptr.mk (ptr.addr p).

(** *** [mem_stride_iterator<T, OffsetN>]

    The two byte-stride iterators are declared with [class] and no access
    specifier, and the sequences over them pass a [const ValueT*] where a
    [const char*] is expected; access control and the implicit conversion
    are not part of the model, which gives each member the meaning of
    its body. *)
Module mem_stride_iterator.
Record t (T : Type) (OffsetN : Z) := mk { _data : Z }.
Arguments mk {T OffsetN} _.
Arguments _data {T OffsetN} _.

Section ops.
Context {T : Type} `{Elem T} {OffsetN : Z}.

Definition deref (c : t T OffsetN) (h : Heap) : option (T * Heap) :=
      match load T h (_data c) with
      | Some v => Some (v, h)
      | None => None
      end.
Definition eqb (c d : t T OffsetN) : bool := _data c =? _data d.
Definition neqb (c d : t T OffsetN) : bool := negb (_data c =? _data d).
Definition incr (c : t T OffsetN) : t T OffsetN := mk (wrap (_data c + OffsetN)).
Definition add (c : t T OffsetN) (n : Z) : t T OffsetN :=
      mk (wrap (_data c + wrap (OffsetN * n))).
Definition add_assign (c : t T OffsetN) (n : Z) : t T OffsetN :=
      mk (wrap (_data c + wrap (OffsetN * n))).
Definition sub (c d : t T OffsetN) : Z := to_ptrdiff (_data c - _data d).
Definition index (c : t T OffsetN) (n : Z) (h : Heap) : option (T * Heap) :=
      match load T h (wrap (_data c + wrap (OffsetN * n))) with
      | Some v => Some (v, h)
      | None => None
      end.
Definition index_set (c : t T OffsetN) (n : Z) (v : T) (h : Heap) : option Heap :=
      store h (wrap (_data c + wrap (OffsetN * n))) v.
End ops.
End mem_stride_iterator.

(** *** [const_mem_stride_iterator<T, OffsetN>] *)
Module const_mem_stride_iterator.
Record t (T : Type) (OffsetN : Z) := mk { _data : Z }.
Arguments mk {T OffsetN} _.
Arguments _data {T OffsetN} _.

Section ops.
Context {T : Type} `{Elem T} {OffsetN : Z}.

Definition of_mem_stride_iterator
      (other : mem_stride_iterator.t T OffsetN) : t T OffsetN :=
      mk (mem_stride_iterator._data other).
Definition deref (c : t T OffsetN) (h : Heap) : option (T * Heap) :=
      match load T h (_data c) with
      | Some v => Some (v, h)
      | None => None
      end.
Definition eqb (c d : t T OffsetN) : bool := _data c =? _data d.
Definition neqb (c d : t T OffsetN) : bool := negb (_data c =? _data d).
Definition incr (c : t T OffsetN) : t T OffsetN := mk (wrap (_data c + OffsetN)).
Definition add (c : t T OffsetN) (n : Z) : t T OffsetN :=
      mk (wrap (_data c + wrap (OffsetN * n))).
Definition add_assign (c : t T OffsetN) (n : Z) : t T OffsetN :=
      mk (wrap (_data c + wrap (OffsetN * n))).
Definition sub (c d : t T OffsetN) : Z := to_ptrdiff (_data c - _data d).
Definition index (c : t T OffsetN) (n : Z) (h : Heap) : option (T * Heap) :=
      match load T h (wrap (_data c + wrap (OffsetN * n))) with
      | Some v => Some (v, h)
      | None => None
      end.
End ops.
End const_mem_stride_iterator.

#[export] Instance mem_stride_cursor {T} `{Elem T} {OffsetN : Z}
  : Cursor Heap T (mem_stride_iterator.t T OffsetN) := {|
  deref := mem_stride_iterator.deref;
  cur_eqb := mem_stride_iterator.eqb;
  incr := mem_stride_iterator.incr;
  add := mem_stride_iterator.add;
  add_assign := mem_stride_iterator.add_assign;
  sub := fun c d => Some (mem_stride_iterator.sub c d);
  index := mem_stride_iterator.index;
  index_by_value := false
|}.

#[export] Instance mem_stride_mut {T} `{Elem T} {OffsetN : Z}
  : MutCursor Heap T (mem_stride_iterator.t T OffsetN) := {|
  index_set := mem_stride_iterator.index_set
|}.

#[export] Instance const_mem_stride_cursor {T} `{Elem T} {OffsetN : Z}
  : Cursor Heap T (const_mem_stride_iterator.t T OffsetN) := {|
  deref := const_mem_stride_iterator.deref;
  cur_eqb := const_mem_stride_iterator.eqb;
  incr := const_mem_stride_iterator.incr;
  add := const_mem_stride_iterator.add;
  add_assign := const_mem_stride_iterator.add_assign;
  sub := fun c d => Some (const_mem_stride_iterator.sub c d);
  index := const_mem_stride_iterator.index;
  index_by_value := false
|}.

#[export] Instance mem_stride_to_const {T} `{Elem T} {OffsetN : Z}
  : ToConst (mem_stride_iterator.t T OffsetN)
            (const_mem_stride_iterator.t T OffsetN) :=
  const_mem_stride_iterator.of_mem_stride_iterator.

(** *** [func_array_iterator<F>]

    [F] is a callable from an index to [F::result_type]; here a function
    that also threads the environment [Env] it may read and update, so a
    call is an observable step.  The iterator holds the callable by value. *)
Module func_array_iterator.
Record t (Env R : Type) := mk { _func : Z -> Env -> R * Env; _i : Z }.
Arguments mk {Env R} _ _.
Arguments _func {Env R} _.
Arguments _i {Env R} _.

Section ops.
Context {Env R : Type}.

Definition deref (c : t Env R) (e : Env) : option (R * Env) :=
  Some (_func c (_i c) e).
Definition eqb (c d : t Env R) : bool := _i c =? _i d.
Definition neqb (c d : t Env R) : bool := negb (_i c =? _i d).
Definition add_assign (c : t Env R) (n : Z) : t Env R :=
  mk (_func c) (wrap (_i c + n)).
Definition incr (c : t Env R) : t Env R := add_assign c 1.
Definition add (c : t Env R) (n : Z) : t Env R :=
  mk (_func c) (wrap (_i c + n)).
Definition sub (c d : t Env R) : Z := to_ptrdiff (wrap (_i c - _i d)).
Definition index (c : t Env R) (n : Z) (e : Env) : option (R * Env) :=
  Some (_func c (wrap (_i c + n)) e).
End ops.
End func_array_iterator.

#[export] Instance func_cursor {Env R}
  : Cursor Env R (func_array_iterator.t Env R) := {|
  deref := func_array_iterator.deref;
  cur_eqb := func_array_iterator.eqb;
  incr := func_array_iterator.incr;
  add := func_array_iterator.add;
  add_assign := func_array_iterator.add_assign;
  sub := fun c d => Some (func_array_iterator.sub c d);
  index := func_array_iterator.index;
  index_by_value := true
|}.

(** *** [const_strided_iterator<IterT>]

    [operator-] divides a [ptrdiff_t] by a [size_t]: the usual arithmetic
    conversions make it an unsigned division, undefined for a zero stride. *)
Module const_strided_iterator.
Record t (IterT : Type) := mk { _iter : IterT; _stride : Z }.
Arguments mk {IterT} _ _.
Arguments _iter {IterT} _.
Arguments _stride {IterT} _.

Section ops.
Context {W T IterT : Type} `{Cursor W T IterT}.

Definition deref (c : t IterT) (w : W) : option (T * W) :=
  deref (_iter c) w.
Definition eqb (c d : t IterT) : bool := cur_eqb (_iter c) (_iter d).
Definition neqb (c d : t IterT) : bool := cur_neqb (_iter c) (_iter d).
Definition incr (c : t IterT) : t IterT :=
  mk (add_assign (_iter c) (_stride c)) (_stride c).
Definition add_assign (c : t IterT) (n : Z) : t IterT :=
  mk (add_assign (_iter c) (wrap (_stride c * n))) (_stride c).
Definition add (c : t IterT) (n : Z) : t IterT :=
  mk (add (_iter c) (wrap (_stride c * n))) (_stride c).
Definition sub (c d : t IterT) : option Z :=
  match sub (_iter c) (_iter d) with
  | Some diff =>
      if _stride c =? 0 then None
      else Some (to_ptrdiff (wrap diff / _stride c))
  | None => None
  end.
Definition index (c : t IterT) (n : Z) (w : W) : option (T * W) :=
  index (_iter c) (wrap (n * _stride c)) w.
End ops.
End const_strided_iterator.

#[export] Instance strided_cursor {W T IterT} `{Cursor W T IterT}
  : Cursor W T (const_strided_iterator.t IterT) := {|
  deref := const_strided_iterator.deref;
  cur_eqb := const_strided_iterator.eqb;
  incr := const_strided_iterator.incr;
  add := const_strided_iterator.add;
  add_assign := const_strided_iterator.add_assign;
  sub := const_strided_iterator.sub;
  index := const_strided_iterator.index;
  index_by_value := true
|}.

(** ** The bounded-sequence bases *)

(** *** [const_array_base<T, IterT>]

    [operator[]] returns a reference ([const value_type&]) to what
    [begin()[n]] yields; [index] is the value read through it.  For a
    cursor whose own [operator[]] returns by value (function and strided
    cursors) the reference is bound to a temporary that is gone when
    [operator[]] returns: the read is undefined ([None]). *)
Module const_array_base.
Record t (T IterT : Type) := mk { _iter : IterT; _size : Z }.
Arguments mk {T IterT} _ _.
Arguments _iter {T IterT} _.
Arguments _size {T IterT} _.

Section ops.
Context {W T IterT : Type} `{Cursor W T IterT}.

Definition size (s : t T IterT) : Z := _size s.
Definition begin (s : t T IterT) : IterT := _iter s.
Definition end_ (s : t T IterT) : IterT := add (begin s) (size s).
Definition index (s : t T IterT) (n : Z) (w : W) : option (T * W) :=
  if index_by_value (C := IterT) then None else index (begin s) n w.
Definition empty (s : t T IterT) : bool := size s =? 0.
(** No destructor is declared: the implicit one destroys a cursor and a
    [size_t], neither of which owns anything. *)
Definition destroy (s : t T IterT) (w : W) : option W := Some w.
End ops.
End const_array_base.

(** *** [array_base<T, IterT, ConstIterT>]

    [begin]/[end_]/[index] are the non-const overloads, [cbegin]/[cend]/
    [cindex] the const ones; [index_set] assigns through the reference the
    non-const [operator[]] returns. *)
Module array_base.
Record t (T IterT ConstIterT : Type) := mk { _iter : IterT; _size : Z }.
Arguments mk {T IterT ConstIterT} _ _.
Arguments _iter {T IterT ConstIterT} _.
Arguments _size {T IterT ConstIterT} _.

Section ops.
Context {W T IterT ConstIterT : Type}.
Context `{Cursor W T IterT} `{Cursor W T ConstIterT}.
Context `{MutCursor W T IterT} `{ToConst IterT ConstIterT}.

Definition size (s : t T IterT ConstIterT) : Z := _size s.
Definition begin (s : t T IterT ConstIterT) : IterT := _iter s.
Definition end_ (s : t T IterT ConstIterT) : IterT := add (begin s) (size s).
Definition cbegin (s : t T IterT ConstIterT) : ConstIterT :=
  to_const (_iter s).
Definition cend (s : t T IterT ConstIterT) : ConstIterT :=
  add (cbegin s) (size s).
Definition cindex (s : t T IterT ConstIterT) (n : Z) (w : W)
  : option (T * W) := index (cbegin s) n w.
Definition index (s : t T IterT ConstIterT) (n : Z) (w : W)
  : option (T * W) := index (begin s) n w.
Definition index_set (s : t T IterT ConstIterT) (n : Z) (v : T) (w : W)
  : option W := index_set (begin s) n v w.
Definition empty (s : t T IterT ConstIterT) : bool := size s =? 0.
(** No destructor is declared here either. *)
Definition destroy (s : t T IterT ConstIterT) (w : W) : option W := Some w.
End ops.
End array_base.

(** ** Traversal

    [for (it = b; it != e; ++it) visit(it)]: the cursors the body runs at,
    or [None] when [fuel] iterations did not reach [e]. *)
Fixpoint walk {W T C} `{Cursor W T C} (fuel : nat) (b e : C)
  : option (list C) :=
  match fuel with
  | O => None
  | S fuel' =>
      if cur_neqb b e then
        match walk fuel' (incr b) e with
        | Some l => Some (b :: l)
        | None => None
        end
      else Some []
  end.

(** ** The concrete sequences

    Each derives from one of the two bases and adds a constructor only;
    the type is the base's and [mk] is the constructor. *)

(** [array_slice<ArrayT>]: [IterT] and [ConstIterT] are [ArrayT]'s. *)
Module array_slice.
Definition t (ValueT IterT ConstIterT : Type) : Type :=
  array_base.t ValueT IterT ConstIterT.
Definition mk {ValueT IterT ConstIterT : Type} (begin : IterT) (size : Z)
  : t ValueT IterT ConstIterT := array_base.mk begin size.
End array_slice.

(** [const_array_slice<ArrayT>] *)
Module const_array_slice.
Definition t (ValueT IterT : Type) : Type := const_array_base.t ValueT IterT.
Definition mk {ValueT IterT : Type} (begin : IterT) (size : Z)
  : t ValueT IterT := const_array_base.mk begin size.
End const_array_slice.

(** [const_array_stride<ArrayT>]: [IterT] is [ArrayT::iterator].  The
    stride parameter defaults to 0 ([mk2] is the two-argument call). *)
Module const_array_stride.
Definition t (ValueT IterT : Type) : Type :=
  const_array_base.t ValueT (const_strided_iterator.t IterT).
Definition mk {ValueT IterT : Type} (begin : IterT) (size stride : Z)
  : t ValueT IterT :=
  const_array_base.mk (const_strided_iterator.mk begin stride) size.
Definition mk2 {ValueT IterT : Type} (begin : IterT) (size : Z)
  : t ValueT IterT := mk begin size 0.
End const_array_stride.

(** [array_view<ValueT>] *)
Module array_view.
Definition t (ValueT : Type) : Type :=
  array_base.t ValueT (ptr.t ValueT) (const_ptr.t ValueT).
Definition mk {ValueT : Type} (begin : ptr.t ValueT) (size : Z) : t ValueT :=
  array_base.mk begin size.
End array_view.

(** [const_array_view<ValueT>] *)
Module const_array_view.
Definition t (ValueT : Type) : Type :=
  const_array_base.t ValueT (const_ptr.t ValueT).
Definition mk {ValueT : Type} (begin : const_ptr.t ValueT) (size : Z)
  : t ValueT := const_array_base.mk begin size.
End const_array_view.

(** [const_array_mem_stride<ValueT, OffsetN>] *)
Module const_array_mem_stride.
Definition t (ValueT : Type) (OffsetN : Z) : Type :=
  const_array_base.t ValueT (const_mem_stride_iterator.t ValueT OffsetN).
Definition mk {ValueT : Type} {OffsetN : Z} (begin : const_ptr.t ValueT)
  (size : Z) : t ValueT OffsetN :=
  const_array_base.mk (const_mem_stride_iterator.mk (const_ptr.addr begin)) size.
End const_array_mem_stride.

(** [array_mem_stride<ValueT, OffsetN>]: besides [BaseT] it also derives
    from [ConstIterT], a default-constructed (null) iterator subobject. *)
Module array_mem_stride.
Record t (ValueT : Type) (OffsetN : Z) := mk_ {
  base : array_base.t ValueT (mem_stride_iterator.t ValueT OffsetN)
           (const_mem_stride_iterator.t ValueT OffsetN);
  iter_base : const_mem_stride_iterator.t ValueT OffsetN
}.
Arguments mk_ {ValueT OffsetN} _ _.
Arguments base {ValueT OffsetN} _.
Arguments iter_base {ValueT OffsetN} _.
Definition mk {ValueT : Type} {OffsetN : Z} (begin : const_ptr.t ValueT)
  (size : Z) : t ValueT OffsetN :=
  mk_ (array_base.mk (mem_stride_iterator.mk (const_ptr.addr begin)) size)
      (const_mem_stride_iterator.mk 0).
(** The implicit destructor destroys the two base subobjects. *)
Definition destroy {ValueT : Type} {OffsetN : Z} (m : t ValueT OffsetN)
  (h : Heap) : option Heap := Some h.
End array_mem_stride.

(** [func_array<F>] *)
Module func_array.
Definition t (Env R : Type) : Type :=
  const_array_base.t R (func_array_iterator.t Env R).
Definition mk {Env R : Type} (func : Z -> Env -> R * Env) (size : Z)
  : t Env R := const_array_base.mk (func_array_iterator.mk func 0) size.
End func_array.

(** ** Allocation

    [new T[n]] and [delete[]] belong to the C++ runtime, not to the header:
    where a block is placed and what its bytes hold before initialisation
    are parameters.  A placement is accepted only if the block is non-null,
    lies inside the address space, overlaps no existing storage and is not
    the base of a live block. *)
Record allocator := {
  place : Heap -> Z -> option Z;
  junk : Z -> byte
}.

Definition fresh (h : Heap) (p len : Z) : bool :=
  (0 <? p) && (p + len <=? size_modulus)
  && forallb (fun a => negb ((p <=? a) && (a <? p + len)))
       (map fst (map_to_list (storage h)))
  && (match blocks h !! p with Some _ => false | None => true end).

Definition new_array (al : allocator) (T : Type) `{Elem T} (n : Z) (h : Heap)
  : option (ptr.t T * Heap) :=
  let len := sizeof * n in
  if size_modulus <=? len then None
  else
    match place al h len with
    | Some p =>
        if fresh h p len then
          let init :=
            match default_init with
            | Some d => concat (repeat (encode d) (Z.to_nat n))
            | None => map (fun k => junk al (p + Z.of_nat k))
                        (seq 0 (Z.to_nat len))
            end in
          Some (ptr.mk p,
                mkHeap (map_bytes (storage h) p init)
                       (<[p:=len]> (blocks h)) (released h))
        else None
    | None => None
    end.

(** [delete[] p]: nothing for a null pointer, undefined ([None]) for a
    pointer that is not the base of a live block. *)
Definition delete_array {T : Type} (p : ptr.t T) (h : Heap) : option Heap :=
  if ptr.addr p =? 0 then Some h
  else
    match blocks h !! ptr.addr p with
    | Some len =>
        Some (mkHeap (unmap_bytes (storage h) (ptr.addr p) (Z.to_nat len))
                     (delete (ptr.addr p) (blocks h))
                     (ptr.addr p :: released h))
    | None => None
    end.

(** [array<T>]: derives from [array_view<T>]; [base] is the base-class
    subobject, which is also what converting an array to a view yields. *)
Module array.
Record t (T : Type) := mk { base : array_view.t T }.
Arguments mk {T} _.
Arguments base {T} _.

Section ops.
Context {T : Type} `{Elem T}.

(** [array(size_t size) : BaseT(new T[size], size)] *)
Definition new_ (al : allocator) (size : Z) (h : Heap) : option (t T * Heap) :=
  match new_array al T size h with
  | Some (p, h') => Some (mk (array_view.mk p size), h')
  | None => None
  end.

(** [~array() { delete[] BaseT::begin(); }], then the base's destructor. *)
Definition destroy (a : t T) (h : Heap) : option Heap :=
  match delete_array (array_base.begin (base a)) h with
  | Some h' => array_base.destroy (base a) h'
  | None => None
  end.

(** The inherited members. *)
Definition size (a : t T) : Z := array_base.size (base a).
Definition empty (a : t T) : bool := array_base.empty (base a).
Definition begin (a : t T) : ptr.t T := array_base.begin (base a).
Definition end_ (a : t T) : ptr.t T := array_base.end_ (base a).
Definition cbegin (a : t T) : const_ptr.t T := array_base.cbegin (base a).
Definition cend (a : t T) : const_ptr.t T := array_base.cend (base a).
Definition index (a : t T) (n : Z) (h : Heap) : option (T * Heap) :=
  array_base.index (base a) n h.
Definition cindex (a : t T) (n : Z) (h : Heap) : option (T * Heap) :=
  array_base.cindex (base a) n h.
Definition index_set (a : t T) (n : Z) (v : T) (h : Heap) : option Heap :=
  array_base.index_set (base a) n v h.
End ops.
End array.

(** [typedef array<unsigned char> buffer] *)
Definition buffer : Type := array.t uchar.

(** An allocator for examples: blocks are placed one after another from
    address 16 on, and fresh bytes hold [xaa]. *)
Definition bump_place (h : Heap) (len : Z) : option Z :=
  Some (fold_right Z.max 16
          (map (fun kv => fst kv + Z.max (snd kv) 1) (map_to_list (blocks h)))).

Definition bump : allocator := {| place := bump_place; junk := fun _ => xaa |}.

(** ** Specification vocabulary *)

(** What [operator==] compares ([pos]) and by how much one step of the
    cursor moves it ([step]). *)
Class Linear (C : Type) := {
  pos : C -> Z;
  step : C -> Z
}.

#[global] Hint Mode Linear ! : typeclass_instances.

#[export] Instance ptr_linear {T} `{Elem T} : Linear (ptr.t T) := {|
  pos := ptr.addr; step := fun _ => sizeof
|}.

#[export] Instance const_ptr_linear {T} `{Elem T} : Linear (const_ptr.t T) := {|
  pos := const_ptr.addr; step := fun _ => sizeof
|}.

#[export] Instance mem_stride_linear {T} {OffsetN : Z}
  : Linear (mem_stride_iterator.t T OffsetN) := {|
  pos := mem_stride_iterator._data; step := fun _ => OffsetN
|}.

#[export] Instance const_mem_stride_linear {T} {OffsetN : Z}
  : Linear (const_mem_stride_iterator.t T OffsetN) := {|
  pos := const_mem_stride_iterator._data; step := fun _ => OffsetN
|}.

#[export] Instance func_linear {Env R}
  : Linear (func_array_iterator.t Env R) := {|
  pos := func_array_iterator._i; step := fun _ => 1
|}.

#[export] Instance strided_linear {IterT} `{Linear IterT}
  : Linear (const_strided_iterator.t IterT) := {|
  pos := fun c => pos (const_strided_iterator._iter c);
  step := fun c =>
    step (const_strided_iterator._iter c) * const_strided_iterator._stride c
|}.

(** The laws the four cursor kinds share. *)
Class CursorLaws (W T C : Type) `{Cursor W T C} `{Linear C} : Prop := {
  eqb_pos : forall c d : C, cur_eqb c d = (pos c =? pos d);
  pos_incr : forall c : C, pos (incr c) = wrap (pos c + step c);
  step_incr : forall c : C, step (incr c) = step c;
  pos_add : forall (c : C) n, pos (add c n) = wrap (pos c + step c * n);
  step_add : forall (c : C) n, step (add c n) = step c;
  add_assign_add : forall (c : C) n, add_assign c n = add c n;
  index_wrap : forall (c : C) n (w : W), index c (wrap n) w = index c n w;
  index_add : forall (c : C) a b (w : W),
    index (add c a) b w = index c (a + b) w
}.

(** The value read at index [n], without the state. *)
Definition value_of {W T} (r : option (T * W)) : option T :=
  match r with
  | Some (v, _) => Some v
  | None => None
  end.

#[global] Hint Mode CursorLaws - - ! - - : typeclass_instances.

(** Writing through an advanced cursor, and advancing a converted one. *)
Class MutCursorLaws (W T C : Type) `{Cursor W T C} `{MutCursor W T C}
  : Prop := {
  index_set_add : forall (c : C) a b (v : T) (w : W),
    index_set (add c a) b v w = index_set c (a + b) v w
}.

Class ToConstLaws (W T C CC : Type) `{Cursor W T C} `{Cursor W T CC}
  `{ToConst C CC} : Prop := {
  to_const_add : forall (c : C) n, to_const (add c n) = add (to_const c) n;
  to_const_index : forall (c : C) n (w : W),
    value_of (index (to_const c) n w) = value_of (index c n w)
}.

#[global] Hint Mode MutCursorLaws - - ! - - : typeclass_instances.
#[global] Hint Mode ToConstLaws - - ! - - - - : typeclass_instances.

(** The cursors [b], [++b], ... : [n] of them. *)
Fixpoint iterates {W T C} `{Cursor W T C} (n : nat) (b : C) : list C :=
  match n with
  | O => []
  | S k => b :: iterates k (incr b)
  end.

(** Walking from [b] to [e] ends, whatever the fuel beyond [n], after the
    body ran at exactly [n] cursors. *)
Definition visits_exactly {W T C} `{Cursor W T C} (b e : C) (n : Z) : Prop :=
  forall fuel : nat, (Z.to_nat n < fuel)%nat ->
    exists l, walk fuel b e = Some l
              /\ Z.of_nat (length l) = n
              /\ l = iterates (Z.to_nat n) b.

(** Every address of [[p, p + len)] is backed by storage. *)
Definition valid_range (h : Heap) (p len : Z) : Prop :=
  forall x, p <= x < p + len -> is_Some (storage h !! x).

(** A callable instrumented with a count of its invocations. *)
Definition counted {Env R} (f : Z -> Env -> R * Env)
  : Z -> nat * Env -> R * (nat * Env) :=
  fun i ce =>
    let (r, e') := f i (snd ce) in (r, (S (fst ce), e')).

(** [k] successive reads of [b[i]] through the cursor [b]: the values
    read, and the final state. *)
Fixpoint reads {W T C} `{Cursor W T C} (b : C) (i : Z)
  (k : nat) (w : W) : option (list T * W) :=
  match k with
  | O => Some ([], w)
  | S k' =>
      match index b i w with
      | Some (v, w') =>
          match reads b i k' w' with
          | Some (vs, w'') => Some (v :: vs, w'')
          | None => None
          end
      | None => None
      end
  end.

(** Storage for examples: twelve bytes [01 .. 0c] at addresses 16 .. 27,
    not obtained from [new[]]. *)
Definition example_heap : Heap :=
  mkHeap (map_bytes ∅ 16 [x01; x02; x03; x04; x05; x06;
                          x07; x08; x09; x0a; x0b; x0c]) ∅ [].

(** ** Further vocabulary *)

(** The postfix [operator++(int)], written alike in the four iterator
    classes: it copies the object into [r], applies [++] to the object
    and returns [r].  That [++] is written after its operand: it is the
    postfix operator again, on the same object; [fuel] bounds the depth
    of the calls.  The result pairs the updated object with the returned
    copy. *)
Fixpoint post_incr {C : Type} (fuel : nat) (this : C) : option (C * C) :=
  match fuel with
  | O => None
  | S fuel' =>
      let r := this in
      match post_incr fuel' this with
      | Some (this', _) => Some (this', r)
      | None => None
      end
  end.

(** How advancing composes, as equalities of cursors. *)
Class AdvanceLaws (W T C : Type) `{Cursor W T C} : Prop := {
  incr_add : forall c : C, incr c = add c 1;
  add_add : forall (c : C) a b, add (add c a) b = add c (a + b);
  add_wrap : forall (c : C) n, add c (wrap n) = add c n;
  deref_add : forall (c : C) n (w : W), deref (add c n) w = index c n w
}.

#[global] Hint Mode AdvanceLaws - - ! - : typeclass_instances.

(** What a loop body that dereferences its cursor sees: the values
    dereferenced at the cursors of [l], in order, and the final state. *)
Fixpoint deref_all {W T C} `{Cursor W T C} (l : list C) (w : W)
  : option (list T * W) :=
  match l with
  | [] => Some ([], w)
  | c :: l' =>
      match deref c w with
      | Some (v, w') =>
          match deref_all l' w' with
          | Some (vs, w'') => Some (v :: vs, w'')
          | None => None
          end
      | None => None
      end
  end.

(** [b[i]], [b[i+1]], ... : [n] indexed reads, in order. *)
Fixpoint index_from {W T C} `{Cursor W T C} (b : C) (i : Z) (n : nat) (w : W)
  : option (list T * W) :=
  match n with
  | O => Some ([], w)
  | S k =>
      match index b i w with
      | Some (v, w') =>
          match index_from b (i + 1) k w' with
          | Some (vs, w'') => Some (v :: vs, w'')
          | None => None
          end
      | None => None
      end
  end.

(** [f i], [f (i+1)], ... : [n] invocations, each in the environment the
    previous one left. *)
Fixpoint calls {Env R} (f : Z -> Env -> R * Env) (i : Z) (n : nat) (e : Env)
  : list R * Env :=
  match n with
  | O => ([], e)
  | S k =>
      let (r, e') := f i e in
      let (rs, e'') := calls f (i + 1) k e' in
      (r :: rs, e'')
  end.

(** * Verified properties *)

(** ** Arithmetic of [wrap] *)

Lemma size_modulus_eq : size_modulus = 18446744073709551616.
Proof. reflexivity. Qed.

Lemma wrap_range z : 0 <= wrap z < size_modulus.
Proof. unfold wrap. apply Z.mod_pos_bound. rewrite size_modulus_eq. lia. Qed.

Lemma wrap_small z : 0 <= z < size_modulus -> wrap z = z.
Proof. intros Hz. unfold wrap. apply Z.mod_small. exact Hz. Qed.

Lemma wrap_wrap z : wrap (wrap z) = wrap z.
Proof. apply wrap_small, wrap_range. Qed.

Lemma wrap_add_l a b : wrap (wrap a + b) = wrap (a + b).
Proof. unfold wrap. apply Zplus_mod_idemp_l. Qed.

Lemma wrap_add_r a b : wrap (a + wrap b) = wrap (a + b).
Proof. unfold wrap. apply Zplus_mod_idemp_r. Qed.

Lemma wrap_mul_l a b : wrap (wrap a * b) = wrap (a * b).
Proof. unfold wrap. apply Zmult_mod_idemp_l. Qed.

Lemma wrap_mul_r a b : wrap (a * wrap b) = wrap (a * b).
Proof. unfold wrap. apply Zmult_mod_idemp_r. Qed.

Lemma wrap_sub_l a b : wrap (wrap a - b) = wrap (a - b).
Proof. unfold wrap. apply Zminus_mod_idemp_l. Qed.

(** [a + s * wrap n] and [a + s * n] are the same address. *)
Lemma wrap_add_mul_r a s n : wrap (a + s * wrap n) = wrap (a + s * n).
Proof.
  rewrite <- (wrap_add_r a (s * wrap n)), wrap_mul_r.
  apply wrap_add_r.
Qed.

Lemma wrap_add_mul_l a s n : wrap (a + wrap n * s) = wrap (a + n * s).
Proof.
  rewrite <- (wrap_add_r a (wrap n * s)), wrap_mul_l.
  apply wrap_add_r.
Qed.

(** Two positions [k * s] and [n * s] bytes after [p] differ unless the
    distance between them is a multiple of the modulus. *)
Lemma wrap_inj_small p s k n :
  0 <= k < n -> 0 < s -> s * n < size_modulus ->
  wrap (p + s * k) <> wrap (p + s * n).
Proof.
  intros Hk Hs Hn Heq. unfold wrap in Heq.
  assert (Hd : (p + s * n - (p + s * k)) mod size_modulus = 0).
  { rewrite Zminus_mod, Heq, Z.sub_diag. reflexivity. }
  replace (p + s * n - (p + s * k)) with (s * (n - k)) in Hd by ring.
  rewrite Z.mod_small in Hd; nia.
Qed.

Create Rewrite HintDb wrap_db.
#[global] Hint Rewrite wrap_wrap wrap_add_l wrap_add_r wrap_mul_l wrap_mul_r
  wrap_sub_l wrap_add_mul_r wrap_add_mul_l : wrap_db.

(** Closes [wrap e1 = wrap e2] once the inner reductions are gone. *)
Ltac wrap_eq := autorewrite with wrap_db; f_equal; ring.

(** ** The four cursor kinds obey the cursor laws *)

#[export] Instance ptr_laws {T} `{Elem T} : CursorLaws Heap T (ptr.t T).
Proof.
  split; intros; cbn.
  - reflexivity.
  - unfold ptr.incr, ptr.add; cbn. f_equal. ring.
  - reflexivity.
  - reflexivity.
  - reflexivity.
  - reflexivity.
  - unfold ptr.index, ptr.add. now rewrite wrap_add_mul_r.
  - unfold ptr.index, ptr.add; cbn. do 2 f_equal. wrap_eq.
Qed.

#[export] Instance const_ptr_laws {T} `{Elem T}
  : CursorLaws Heap T (const_ptr.t T).
Proof.
  split; intros; cbn.
  - reflexivity.
  - unfold const_ptr.incr, const_ptr.add; cbn. f_equal. ring.
  - reflexivity.
  - reflexivity.
  - reflexivity.
  - reflexivity.
  - unfold const_ptr.index, const_ptr.add. now rewrite wrap_add_mul_r.
  - unfold const_ptr.index, const_ptr.add; cbn. do 2 f_equal. wrap_eq.
Qed.

#[export] Instance mem_stride_laws {T} `{Elem T} {OffsetN : Z}
  : CursorLaws Heap T (mem_stride_iterator.t T OffsetN).
Proof.
  split; intros; cbn.
  - reflexivity.
  - reflexivity.
  - reflexivity.
  - apply wrap_add_r.
  - reflexivity.
  - reflexivity.
  - unfold mem_stride_iterator.index. now rewrite wrap_mul_r.
  - unfold mem_stride_iterator.index; cbn.
    replace (wrap (wrap (mem_stride_iterator._data c + wrap (OffsetN * a))
                   + wrap (OffsetN * b)))
      with (wrap (mem_stride_iterator._data c + wrap (OffsetN * (a + b))));
      [reflexivity | wrap_eq].
Qed.

#[export] Instance const_mem_stride_laws {T} `{Elem T} {OffsetN : Z}
  : CursorLaws Heap T (const_mem_stride_iterator.t T OffsetN).
Proof.
  split; intros; cbn.
  - reflexivity.
  - reflexivity.
  - reflexivity.
  - apply wrap_add_r.
  - reflexivity.
  - reflexivity.
  - unfold const_mem_stride_iterator.index. now rewrite wrap_mul_r.
  - unfold const_mem_stride_iterator.index; cbn.
    replace (wrap (wrap (const_mem_stride_iterator._data c
                         + wrap (OffsetN * a)) + wrap (OffsetN * b)))
      with (wrap (const_mem_stride_iterator._data c
                  + wrap (OffsetN * (a + b))));
      [reflexivity | wrap_eq].
Qed.

#[export] Instance func_laws {Env R}
  : CursorLaws Env R (func_array_iterator.t Env R).
Proof.
  split; intros; cbn.
  - reflexivity.
  - reflexivity.
  - reflexivity.
  - f_equal. ring.
  - reflexivity.
  - reflexivity.
  - unfold func_array_iterator.index. now rewrite wrap_add_r.
  - unfold func_array_iterator.index; cbn. do 2 f_equal. wrap_eq.
Qed.

#[export] Instance strided_laws {W T IterT} `{CursorLaws W T IterT}
  : CursorLaws W T (const_strided_iterator.t IterT).
Proof.
  split; intros; cbn.
  - unfold const_strided_iterator.eqb. apply eqb_pos.
  - rewrite add_assign_add, pos_add. reflexivity.
  - rewrite add_assign_add, step_add. reflexivity.
  - rewrite pos_add. rewrite wrap_add_mul_r. f_equal. ring.
  - rewrite step_add. reflexivity.
  - unfold const_strided_iterator.add_assign, const_strided_iterator.add.
    now rewrite add_assign_add.
  - unfold const_strided_iterator.index. now rewrite wrap_mul_l.
  - unfold const_strided_iterator.index; cbn.
    rewrite index_add.
    rewrite <- (index_wrap _ (wrap _ + wrap _)).
    f_equal. wrap_eq.
Qed.

(** ** Traversal from [begin] to [end] *)

Section Walk.
Context {W T C : Type} `{CursorLaws W T C}.

Lemma cur_eqb_refl (c : C) : cur_eqb c c = true.
Proof. rewrite eqb_pos. apply Z.eqb_refl. Qed.

Lemma iterates_length (n : nat) (b : C) : length (iterates n b) = n.
Proof.
  revert b. induction n as [|n IH]; intros b; simpl; [reflexivity|].
  now rewrite IH.
Qed.

(** A cursor [k] steps after position [p] reaches the one [k + m] steps
    after it in [m] increments and not before. *)
Lemma walk_reach (m : nat) :
  forall (c e : C) (p s k : Z) (fuel : nat),
    pos c = wrap (p + s * k) -> step c = s ->
    pos e = wrap (p + s * (k + Z.of_nat m)) ->
    0 <= k -> 0 < s -> s * (k + Z.of_nat m) < size_modulus ->
    (m < fuel)%nat ->
    walk fuel c e = Some (iterates m c).
Proof.
  induction m as [|m IH]; intros c e p s k fuel Hc Hs He Hk Hs0 Hn Hf;
    destruct fuel as [|fuel]; try lia; simpl.
  - unfold cur_neqb. rewrite eqb_pos, Hc, He.
    replace (k + Z.of_nat 0) with k by lia.
    now rewrite Z.eqb_refl.
  - unfold cur_neqb. rewrite eqb_pos, Hc, He.
    destruct (Z.eqb_spec (wrap (p + s * k))
                (wrap (p + s * (k + Z.of_nat (S m))))) as [Heq|_].
    + exfalso. revert Heq. apply wrap_inj_small; lia.
    + simpl. rewrite (IH (incr c) e p s (k + 1) fuel); try lia.
      * reflexivity.
      * rewrite pos_incr, Hc, Hs. wrap_eq.
      * now rewrite step_incr.
      * rewrite He. f_equal. lia.
Qed.

(** Walking from a cursor to the cursor [n] positions later. *)
Lemma walk_add (c : C) (n : Z) :
  is_size_t (pos c) -> 0 <= n -> 0 < step c -> step c * n < size_modulus ->
  visits_exactly c (add c n) n.
Proof.
  intros Hp Hn Hs Hb fuel Hf.
  exists (iterates (Z.to_nat n) c). split; [|split].
  - apply (walk_reach (Z.to_nat n) c (add c n) (pos c) (step c) 0);
      try lia; try reflexivity.
    + rewrite Z.mul_0_r, Z.add_0_r. symmetry. now apply wrap_small.
    + rewrite pos_add. f_equal. lia.
  - rewrite iterates_length. lia.
  - reflexivity.
Qed.

(** When the cursor does not move, [begin] is [end] at once. *)
Lemma walk_stuck (c : C) (n : Z) (fuel : nat) :
  is_size_t (pos c) -> step c = 0 ->
  walk (S fuel) c (add c n) = Some [].
Proof.
  intros Hp Hs. simpl. unfold cur_neqb.
  rewrite eqb_pos, pos_add, Hs, Z.mul_0_l, Z.add_0_r, (wrap_small _ Hp).
  now rewrite Z.eqb_refl.
Qed.
End Walk.

Section BeginEnd.
Context {W T S I CI : Type}.
Context `{CursorLaws W T S} `{CursorLaws W T I} `{CursorLaws W T CI}.
Context `{MutCursor W T I} `{ToConst I CI}.

(** C1 (as amended).  For both bases, [end()] is [begin()] advanced by
    [size()] -- it is computed, never stored -- and compares equal to it.
    When [begin()] is a proper [size_t] position, the cursor's step is not
    zero and [size()] steps do not wrap around the 64-bit space, the loop
    [for (it = begin(); it != end(); ++it)] ends after visiting exactly
    [size()] cursors: [begin()], [++begin()], ...  This holds for every
    cursor kind, hence for every sequence of the header. *)
Theorem end_is_begin_plus_size :
  (forall s : const_array_base.t T S,
     let b := const_array_base.begin s in
     let n := const_array_base.size s in
     const_array_base.end_ s = add b n
     /\ cur_eqb (const_array_base.end_ s) (add b n) = true
     /\ (is_size_t (pos b) -> 0 <= n -> 0 < step b ->
         step b * n < size_modulus ->
         visits_exactly b (const_array_base.end_ s) n))
  /\ (forall s : array_base.t T I CI,
        let b := array_base.begin s in
        let cb := array_base.cbegin s in
        let n := array_base.size s in
        array_base.end_ s = add b n
        /\ cur_eqb (array_base.end_ s) (add b n) = true
        /\ array_base.cend s = add cb n
        /\ cur_eqb (array_base.cend s) (add cb n) = true
        /\ (is_size_t (pos b) -> 0 <= n -> 0 < step b ->
            step b * n < size_modulus ->
            visits_exactly b (array_base.end_ s) n)
        /\ (is_size_t (pos cb) -> 0 <= n -> 0 < step cb ->
            step cb * n < size_modulus ->
            visits_exactly cb (array_base.cend s) n)).
Proof.
  split.
  - intros s b n. split; [reflexivity|]. split; [apply cur_eqb_refl|].
    intros. now apply walk_add.
  - intros s b cb n. repeat split; try reflexivity; try apply cur_eqb_refl.
    + now apply walk_add.
    + now apply walk_add.
Qed.
End BeginEnd.

(** Discharges the range side conditions of concrete instances. *)
Ltac range_conds :=
  unfold is_size_t; rewrite ?size_modulus_eq; cbn; lia.

(** C1, as stated, fails.  An index-strided slice of three elements built
    with the constructor's default stride 0: [end()] is [begin() + 0 * 3],
    equal to [begin()], so the loop body never runs although [size()] is 3. *)
Lemma stride_zero_walk_visits_nothing :
  let s := const_array_stride.mk2 (ValueT := uchar) (ptr.mk (T := uchar) 16) 3 in
  const_array_base.size s = 3
  /\ walk 4 (const_array_base.begin s) (const_array_base.end_ s) = Some []
  /\ ~ visits_exactly (const_array_base.begin s) (const_array_base.end_ s)
         (const_array_base.size s).
Proof.
  cbv zeta. split; [reflexivity|]. split; [reflexivity|].
  intros Hv. destruct (Hv 4%nat) as (l & Hw & Hl & _).
  - vm_compute. lia.
  - vm_compute in Hw. injection Hw as <-. discriminate Hl.
Qed.

Lemma end_is_begin_plus_size_witness :
  let s := const_array_stride.mk (ValueT := uint16) (ptr.mk (T := uint16) 16) 3 2 in
  let v := array_view.mk (ptr.mk (T := uint16) 16) 3 in
  visits_exactly (const_array_base.begin s) (const_array_base.end_ s) 3
  /\ visits_exactly (array_base.begin v) (array_base.end_ v) 3
  /\ visits_exactly (array_base.cbegin v) (array_base.cend v) 3.
Proof.
  cbv zeta.
  destruct (end_is_begin_plus_size
              (S := const_strided_iterator.t (ptr.t uint16))
              (I := ptr.t uint16) (CI := const_ptr.t uint16)) as [Hc Hm].
  split; [|split].
  - apply (Hc (const_array_stride.mk (ptr.mk 16) 3 2)); range_conds.
  - apply (Hm (array_view.mk (ptr.mk 16) 3)); range_conds.
  - apply (Hm (array_view.mk (ptr.mk 16) 3)); range_conds.
Defined.

(** ** Distance between byte-stride cursors *)

Lemma to_ptrdiff_congr a b : wrap a = wrap b -> to_ptrdiff a = to_ptrdiff b.
Proof. intros E. unfold to_ptrdiff. now rewrite E. Qed.

Lemma to_ptrdiff_small z : 0 <= z < 2 ^ 63 -> to_ptrdiff z = z.
Proof.
  intros Hz. unfold to_ptrdiff.
  assert (Hm : 2 ^ 63 < size_modulus) by (rewrite size_modulus_eq; lia).
  rewrite wrap_small by lia.
  destruct (Z.ltb_spec z (2 ^ 63)); lia.
Qed.

Lemma wrap_advance_back d x : wrap (wrap (d + wrap x) - d) = wrap x.
Proof.
  rewrite wrap_sub_l. replace (d + wrap x - d) with (wrap x) by ring.
  apply wrap_wrap.
Qed.

(** C10.  For both byte-stride cursors with byte offset [B], [(c + n) - c]
    is the byte distance [n * B] as a [ptrdiff_t]: exactly [n * B] whenever
    that fits a [ptrdiff_t], and then different from the number of
    positions [n] unless [B] is 1 or [n] is 0. *)
Theorem mem_stride_distance_in_bytes :
  forall (T : Type) (B : Z) (c : mem_stride_iterator.t T B)
         (cc : const_mem_stride_iterator.t T B) (n : Z),
    let d := mem_stride_iterator.sub (mem_stride_iterator.add c n) c in
    let cd :=
      const_mem_stride_iterator.sub (const_mem_stride_iterator.add cc n) cc in
    (d = to_ptrdiff (n * B) /\ cd = to_ptrdiff (n * B))
    /\ (0 <= n * B < 2 ^ 63 -> d = n * B /\ cd = n * B)
    /\ (0 <= n * B < 2 ^ 63 -> n <> 0 -> B <> 1 -> d <> n /\ cd <> n).
Proof.
  intros T B c cc n d cd.
  assert (Hd : d = to_ptrdiff (n * B)).
  { unfold d, mem_stride_iterator.sub, mem_stride_iterator.add; cbn.
    apply to_ptrdiff_congr. rewrite wrap_advance_back. f_equal. ring. }
  assert (Hcd : cd = to_ptrdiff (n * B)).
  { unfold cd, const_mem_stride_iterator.sub, const_mem_stride_iterator.add;
      cbn.
    apply to_ptrdiff_congr. rewrite wrap_advance_back. f_equal. ring. }
  split; [now split|]. split.
  - intros Hfit. rewrite Hd, Hcd, to_ptrdiff_small by exact Hfit. now split.
  - intros Hfit Hn HB. rewrite Hd, Hcd, to_ptrdiff_small by exact Hfit.
    split; nia.
Qed.

Lemma mem_stride_distance_in_bytes_witness :
  mem_stride_iterator.sub
    (mem_stride_iterator.add (mem_stride_iterator.mk (T := uint16) (OffsetN := 12) 16) 5)
    (mem_stride_iterator.mk 16) = 60
  /\ const_mem_stride_iterator.sub
       (const_mem_stride_iterator.add
          (const_mem_stride_iterator.mk (T := uint16) (OffsetN := 12) 16) 5)
       (const_mem_stride_iterator.mk 16) <> 5.
Proof.
  destruct (mem_stride_distance_in_bytes uint16 12
              (mem_stride_iterator.mk 16) (const_mem_stride_iterator.mk 16) 5)
    as (_ & Hexact & Hne).
  split.
  - apply Hexact. lia.
  - apply Hne; lia.
Defined.

#[export] Instance ptr_mut_laws {T} `{Elem T} : MutCursorLaws Heap T (ptr.t T).
Proof.
  split; intros; cbn. unfold ptr.index_set, ptr.add; cbn.
  f_equal. wrap_eq.
Qed.

#[export] Instance mem_stride_mut_laws {T} `{Elem T} {OffsetN : Z}
  : MutCursorLaws Heap T (mem_stride_iterator.t T OffsetN).
Proof.
  split; intros; cbn. unfold mem_stride_iterator.index_set; cbn.
  f_equal. wrap_eq.
Qed.

#[export] Instance ptr_to_const_laws {T} `{Elem T}
  : ToConstLaws Heap T (ptr.t T) (const_ptr.t T).
Proof. split; intros; reflexivity. Qed.

#[export] Instance mem_stride_to_const_laws {T} `{Elem T} {OffsetN : Z}
  : ToConstLaws Heap T (mem_stride_iterator.t T OffsetN)
      (const_mem_stride_iterator.t T OffsetN).
Proof. split; intros; reflexivity. Qed.

(** ** Advancing composes *)

#[export] Instance ptr_advance {T} `{Elem T} : AdvanceLaws Heap T (ptr.t T).
Proof.
  split; intros; cbn.
  - reflexivity.
  - unfold ptr.add; cbn. f_equal. wrap_eq.
  - unfold ptr.add. now rewrite wrap_add_mul_r.
  - reflexivity.
Qed.

#[export] Instance const_ptr_advance {T} `{Elem T}
  : AdvanceLaws Heap T (const_ptr.t T).
Proof.
  split; intros; cbn.
  - reflexivity.
  - unfold const_ptr.add; cbn. f_equal. wrap_eq.
  - unfold const_ptr.add. now rewrite wrap_add_mul_r.
  - reflexivity.
Qed.

#[export] Instance mem_stride_advance {T} `{Elem T} {OffsetN : Z}
  : AdvanceLaws Heap T (mem_stride_iterator.t T OffsetN).
Proof.
  split; intros; cbn.
  - unfold mem_stride_iterator.incr, mem_stride_iterator.add.
    now rewrite wrap_add_r, Z.mul_1_r.
  - unfold mem_stride_iterator.add; cbn. f_equal. wrap_eq.
  - unfold mem_stride_iterator.add. now rewrite wrap_mul_r.
  - reflexivity.
Qed.

#[export] Instance const_mem_stride_advance {T} `{Elem T} {OffsetN : Z}
  : AdvanceLaws Heap T (const_mem_stride_iterator.t T OffsetN).
Proof.
  split; intros; cbn.
  - unfold const_mem_stride_iterator.incr, const_mem_stride_iterator.add.
    now rewrite wrap_add_r, Z.mul_1_r.
  - unfold const_mem_stride_iterator.add; cbn. f_equal. wrap_eq.
  - unfold const_mem_stride_iterator.add. now rewrite wrap_mul_r.
  - reflexivity.
Qed.

#[export] Instance func_advance {Env R}
  : AdvanceLaws Env R (func_array_iterator.t Env R).
Proof.
  split; intros; cbn.
  - reflexivity.
  - unfold func_array_iterator.add; cbn. f_equal. wrap_eq.
  - unfold func_array_iterator.add. now rewrite wrap_add_r.
  - reflexivity.
Qed.

#[export] Instance strided_advance {W T IterT} `{CursorLaws W T IterT}
  `{!AdvanceLaws W T IterT}
  : AdvanceLaws W T (const_strided_iterator.t IterT).
Proof.
  split; intros; cbn.
  - unfold const_strided_iterator.incr, const_strided_iterator.add.
    now rewrite add_assign_add, add_wrap, Z.mul_1_r.
  - unfold const_strided_iterator.add; cbn.
    rewrite add_add.
    rewrite <- (add_wrap _ (wrap _ + wrap _)).
    do 2 f_equal. wrap_eq.
  - unfold const_strided_iterator.add. now rewrite wrap_mul_r.
  - unfold const_strided_iterator.deref, const_strided_iterator.index; cbn.
    now rewrite deref_add, Z.mul_comm.
Qed.

(** ** Slices: subranges and strides *)

Section Slices.
Context {W T S I CI : Type}.
Context `{CursorLaws W T S} `{CursorLaws W T I} `{CursorLaws W T CI}.
Context `{MutCursor W T I} `{ToConst I CI}.
Context `{!MutCursorLaws W T I} `{!ToConstLaws W T I CI}.
Context `{!AdvanceLaws W T S} `{!AdvanceLaws W T I}.


(** C4 (as amended).  An index-strided slice built from a source's begin
    cursor, a size [n] and a stride [k] has the size [n] it was given --
    the header never derives it from the source's length -- and its cursor
    addresses the source's element [i * k]: [slice.begin()[i]] and
    [*(slice.begin() + i)] are [source.begin()[i * k]], which is
    [source[i * k]] for a source whose cursor returns references.  When
    the caller passes [n = L / k] for a source of length [L] and [k > 0],
    every index of the slice addresses an element of the source. *)
Theorem strided_slice_size_and_index :
  (forall (source : const_array_base.t T S) (n k i : Z) (w : W),
     let slice : const_array_stride.t T S :=
       const_array_stride.mk (const_array_base.begin source) n k in
     let b := const_array_base.begin slice in
     const_array_base.size slice = n
     /\ index b i w = index (const_array_base.begin source) (i * k) w
     /\ deref (add b i) w = index (const_array_base.begin source) (i * k) w
     /\ (index_by_value (C := S) = false ->
         index b i w = const_array_base.index source (i * k) w)
     /\ (0 < k -> n = const_array_base.size source / k -> 0 <= i < n ->
         0 <= i * k < const_array_base.size source))
  /\ (forall (source : array_base.t T I CI) (n k i : Z) (w : W),
        let slice : const_array_stride.t T I :=
          const_array_stride.mk (array_base.begin source) n k in
        let b := const_array_base.begin slice in
        const_array_base.size slice = n
        /\ index b i w = array_base.index source (i * k) w
        /\ deref (add b i) w = array_base.index source (i * k) w
        /\ (0 < k -> n = array_base.size source / k -> 0 <= i < n ->
            0 <= i * k < array_base.size source)).
Proof.
  assert (Hin : forall L n k i, 0 < k -> n = L / k -> 0 <= i < n ->
                                0 <= i * k < L).
  { intros L n k i Hk -> Hi.
    pose proof (Z.mul_div_le L k Hk) as Hle. nia. }
  split; intros source n k i w slice b.
  - assert (Hidx : index b i w
                   = index (const_array_base.begin source) (i * k) w).
    { cbn. unfold const_strided_iterator.index; cbn. apply index_wrap. }
    split; [reflexivity|]. split; [exact Hidx|].
    split; [now rewrite deref_add|]. split; [|apply Hin].
    intros Href. unfold const_array_base.index. now rewrite Href.
  - assert (Hidx : index b i w = array_base.index source (i * k) w).
    { unfold array_base.index; cbn.
      unfold const_strided_iterator.index; cbn. apply index_wrap. }
    split; [reflexivity|]. split; [exact Hidx|].
    split; [now rewrite deref_add | apply Hin].
Qed.
End Slices.


(** C4, as stated, fails.  Over a source of length 10, a slice built with
    size 3 and stride 2 addresses the source's elements 0, 2 and 4; its
    size is the 3 it was given, not 10 / 2. *)
Lemma strided_slice_size_is_the_callers :
  let source := const_array_view.mk (const_ptr.mk (T := uchar) 16) 10 in
  let slice : const_array_stride.t uchar (const_ptr.t uchar) :=
    const_array_stride.mk (const_array_base.begin source) 3 2 in
  const_array_base.size slice = 3
  /\ const_array_base.size source / 2 = 5
  /\ const_array_base.size slice <> const_array_base.size source / 2.
Proof. cbv zeta. split; [reflexivity|]. split; [reflexivity|]. discriminate. Qed.

Lemma strided_slice_size_and_index_witness :
  let source := array_view.mk (ptr.mk (T := uint16) 16) 6 in
  let slice : const_array_stride.t uint16 (ptr.t uint16) :=
    const_array_stride.mk (array_base.begin source) 3 2 in
  let csource := const_array_view.mk (const_ptr.mk (T := uint16) 16) 6 in
  let cslice : const_array_stride.t uint16 (const_ptr.t uint16) :=
    const_array_stride.mk (const_array_base.begin csource) 3 2 in
  const_array_base.size slice = 3
  /\ value_of (index (const_array_base.begin slice) 1 example_heap)
     = Some (U16 x05 x06)
  /\ value_of (deref (add (const_array_base.begin slice) 1) example_heap)
     = Some (U16 x05 x06)
  /\ 0 <= 1 * 2 < array_base.size source
  /\ index (const_array_base.begin cslice) 1 example_heap
     = const_array_base.index csource (1 * 2) example_heap.
Proof.
  cbv zeta.
  destruct (strided_slice_size_and_index (S := const_ptr.t uint16)
              (I := ptr.t uint16) (CI := const_ptr.t uint16)) as [Hc Hm].
  destruct (Hm (array_view.mk (ptr.mk 16) 6) 3 2 1 example_heap)
    as (Hn & Hi & Hd & Hin).
  destruct (Hc (const_array_view.mk (const_ptr.mk 16) 6) 3 2 1 example_heap)
    as (_ & _ & _ & Href & _).
  split; [exact Hn|]. split; [|split; [|split]].
  - rewrite Hi. vm_compute. reflexivity.
  - rewrite Hd. vm_compute. reflexivity.
  - apply Hin; [lia | reflexivity | lia].
  - apply Href. reflexivity.
Defined.

(** ** Byte-stride sequences *)

(** C5.  Element [i] of a byte-stride sequence over [base] with byte
    offset [B] is the [sizeof(T)] bytes at address [base + i * B], decoded
    as a [T]: for the read-only sequence, for both overloads of the mutable
    one, and a write through the mutable one stores there.  The address is
    a 64-bit one; it is [base + i * B] itself when that does not leave the
    address space. *)
Theorem mem_stride_index_address :
  forall (T : Type) `{Elem T} (B : Z) (base : const_ptr.t T) (size i : Z)
         (h : Heap),
    let s : const_array_mem_stride.t T B :=
      const_array_mem_stride.mk base size in
    let m : array_mem_stride.t T B := array_mem_stride.mk base size in
    let a := wrap (const_ptr.addr base + i * B) in
    let at_a :=
      match load_bytes (storage h) a (Z.to_nat sizeof) with
      | Some bs => Some (decode bs, h)
      | None => None
      end in
    const_array_base.index s i h = at_a
    /\ array_base.index (array_mem_stride.base m) i h = at_a
    /\ array_base.cindex (array_mem_stride.base m) i h = at_a
    /\ (forall v : T,
          array_base.index_set (array_mem_stride.base m) i v h = store h a v)
    /\ (0 <= const_ptr.addr base -> 0 <= i * B ->
        const_ptr.addr base + i * B < size_modulus ->
        a = const_ptr.addr base + i * B).
Proof.
  intros T HT B base size i h s m a at_a.
  assert (Ha : wrap (const_ptr.addr base + wrap (B * i)) = a).
  { unfold a. wrap_eq. }
  repeat split.
  - unfold const_array_base.index; cbn.
    unfold const_mem_stride_iterator.index; cbn. rewrite Ha.
    unfold at_a, load. now destruct (load_bytes _ _ _).
  - unfold array_base.index; cbn.
    unfold mem_stride_iterator.index; cbn. rewrite Ha.
    unfold at_a, load. now destruct (load_bytes _ _ _).
  - unfold array_base.cindex, array_base.cbegin; cbn.
    unfold const_mem_stride_iterator.index; cbn. rewrite Ha.
    unfold at_a, load. now destruct (load_bytes _ _ _).
  - intros v. unfold array_base.index_set; cbn.
    unfold mem_stride_iterator.index_set; cbn. now rewrite Ha.
  - intros H0 H1 H2. unfold a. apply wrap_small. lia.
Qed.

Lemma mem_stride_index_address_witness :
  let s : const_array_mem_stride.t uint16 6 :=
    const_array_mem_stride.mk (const_ptr.mk 16) 2 in
  value_of (const_array_base.index s 1 example_heap) = Some (U16 x07 x08)
  /\ wrap (16 + 1 * 6) = 16 + 1 * 6.
Proof.
  cbv zeta.
  destruct (mem_stride_index_address uint16 6 (const_ptr.mk 16) 2 1
              example_heap) as (Hs & _ & _ & _ & Ha).
  split.
  - rewrite Hs. vm_compute. reflexivity.
  - apply Ha; range_conds.
Defined.

(** ** Function sequences *)

(** Through its cursor, element [i] of a function sequence is [f i]. *)
Lemma func_array_index {Env R : Type} (f : Z -> Env -> R * Env) (n i : Z)
  (e : Env) :
  is_size_t i ->
  index (const_array_base.begin (func_array.mk f n)) i e = Some (f i e).
Proof.
  intros Hi. cbn. unfold func_array_iterator.index; cbn.
  now rewrite Z.add_0_l, (wrap_small _ Hi).
Qed.

Section FuncArray.
Context {Env R : Type}.

(** [k] reads of the same element invoke the callable [k] times. *)
Lemma func_array_reads_count (f : Z -> Env -> R * Env) (n i : Z) (k : nat) :
  is_size_t i ->
  forall (c : nat) (e : Env),
    exists vs e',
      reads (const_array_base.begin (func_array.mk (counted f) n)) i k (c, e)
      = Some (vs, ((c + k)%nat, e'))
      /\ length vs = k.
Proof.
  intros Hi. induction k as [|k IH]; intros c e; cbn [reads].
  - exists [], e. now rewrite Nat.add_0_r.
  - rewrite (func_array_index (counted f) n i (c, e) Hi).
    unfold counted at 1; cbn [fst snd]. destruct (f i e) as [r e1].
    destruct (IH (S c) e1) as (vs & e' & Hr & Hl).
    rewrite Hr. exists (r :: vs), e'. split.
    + do 3 f_equal. lia.
    + simpl. now rewrite Hl.
Qed.

(** C6 (a defect of the code).  For a function sequence over a callable
    [f], [sequence[i]] is meant to be [f(i)], and the cursor delivers it:
    [begin()[i]] and [*(begin() + i)] are the result of invoking [f] with
    [i] in the current environment, a second read invokes [f] again, in
    the environment the first invocation left, and [k] reads are [k]
    invocations.  But the sequence's own [operator[]] returns a reference
    to that by-value result, a temporary gone when the operator returns:
    at every index, reading [sequence[i]] has no defined result. *)
Theorem func_array_index_is_undefined :
  forall (f : Z -> Env -> R * Env) (n i : Z) (e : Env),
    let s := func_array.mk f n in
    const_array_base.size s = n
    /\ const_array_base.index s i e = None
    /\ (0 <= i < n -> n < size_modulus ->
        index (const_array_base.begin s) i e = Some (f i e)
        /\ deref (add (const_array_base.begin s) i) e = Some (f i e)
        /\ reads (const_array_base.begin s) i 2 e
           = Some ([fst (f i e); fst (f i (snd (f i e)))],
                   snd (f i (snd (f i e))))
        /\ forall (k c : nat),
             exists vs e',
               reads (const_array_base.begin (func_array.mk (counted f) n))
                 i k (c, e)
               = Some (vs, ((c + k)%nat, e'))
               /\ length vs = k).
Proof.
  intros f n i e s.
  split; [reflexivity|]. split; [reflexivity|].
  intros Hi Hn.
  assert (Hs : is_size_t i) by (unfold is_size_t; lia).
  split; [now apply (func_array_index f n)|].
  split.
  { cbn. unfold func_array_iterator.deref; cbn.
    now rewrite Z.add_0_l, (wrap_small _ Hs). }
  split.
  - cbn [reads]. unfold s. rewrite func_array_index by exact Hs.
    destruct (f i e) as [v1 e1].
    rewrite func_array_index by exact Hs. cbn [fst snd].
    now destruct (f i e1).
  - intros k c. now apply func_array_reads_count.
Qed.
End FuncArray.

(** A callable that returns the number of times it has been invoked: three
    reads of element 4 through the cursor give three different values. *)
Example func_array_reads_differ :
  reads (const_array_base.begin
           (func_array.mk (fun _ (e : Z) => (e, e + 1)) 10)) 4 3 0
  = Some ([0; 1; 2], 3).
Proof. reflexivity. Qed.

Lemma func_array_index_is_undefined_witness :
  let f := fun (i : Z) (e : Z) => (i * i + e, e + 1) in
  const_array_base.index (func_array.mk f 10) 4 0 = None
  /\ index (const_array_base.begin (func_array.mk f 10)) 4 0 = Some (16, 1)
  /\ reads (const_array_base.begin (func_array.mk f 10)) 4 2 0
     = Some ([16; 17], 2).
Proof.
  cbv zeta.
  destruct (func_array_index_is_undefined
              (fun (i : Z) (e : Z) => (i * i + e, e + 1)) 10 4 0)
    as (_ & Hu & Hc).
  split; [exact Hu|].
  destruct Hc as (Hi & _ & Hr & _); [lia | range_conds |].
  split; [exact Hi | exact Hr].
Defined.

(** ** Arrays as views *)

(** C8.  Converting an owning array to a mutable view yields its base
    subobject, which is the view over the array's [begin()] and [size()];
    the immutable view is built from the same pair.  Every operation of
    the array is its base's, so size, emptiness, begin/end, traversal,
    indexed reads and writes give identical results on the array and on
    the mutable view; the immutable view agrees with the array's const
    overloads and reads the same values. *)
Theorem array_is_a_view :
  forall (T : Type) `{Elem T} (a : array.t T),
    let v : array_view.t T := array.base a in
    let cv : const_array_view.t T :=
      const_array_view.mk (to_const (array.begin a)) (array.size a) in
    v = array_view.mk (array.begin a) (array.size a)
    /\ array_base.size v = array.size a
    /\ array_base.empty v = array.empty a
    /\ array_base.begin v = array.begin a
    /\ array_base.end_ v = array.end_ a
    /\ (forall fuel,
          walk fuel (array_base.begin v) (array_base.end_ v)
          = walk fuel (array.begin a) (array.end_ a))
    /\ (forall i h, array_base.index v i h = array.index a i h)
    /\ (forall i x h, array_base.index_set v i x h = array.index_set a i x h)
    /\ const_array_base.size cv = array.size a
    /\ const_array_base.empty cv = array.empty a
    /\ const_array_base.begin cv = array.cbegin a
    /\ const_array_base.end_ cv = array.cend a
    /\ (forall fuel,
          walk fuel (const_array_base.begin cv) (const_array_base.end_ cv)
          = walk fuel (array.cbegin a) (array.cend a))
    /\ (forall i h, const_array_base.index cv i h = array.cindex a i h)
    /\ (forall i h, const_array_base.index cv i h = array.index a i h).
Proof.
  intros T HT [[p n]] v cv. repeat split.
Qed.

(** ** Bytes in storage *)

Lemma map_bytes_out (bs : list byte) :
  forall (m : gmap Z byte) (a x : Z),
    ~ (a <= x < a + Z.of_nat (length bs)) ->
    map_bytes m a bs !! x = m !! x.
Proof.
  induction bs as [|b bs IH]; intros m a x Hx; simpl in *; [reflexivity|].
  rewrite lookup_insert_ne by lia. apply IH. lia.
Qed.

Lemma map_bytes_in (bs : list byte) :
  forall (m : gmap Z byte) (a : Z) (k : nat),
    (k < length bs)%nat ->
    map_bytes m a bs !! (a + Z.of_nat k) = bs !! k.
Proof.
  induction bs as [|b bs IH]; intros m a k Hk; simpl in *; [lia|].
  destruct k as [|k].
  - rewrite Z.add_0_r. apply lookup_insert_eq.
  - rewrite lookup_insert_ne by lia.
    replace (a + Z.of_nat (S k)) with (a + 1 + Z.of_nat k) by lia.
    apply IH. lia.
Qed.

Lemma unmap_bytes_out (n : nat) :
  forall (m : gmap Z byte) (a x : Z),
    ~ (a <= x < a + Z.of_nat n) -> unmap_bytes m a n !! x = m !! x.
Proof.
  induction n as [|n IH]; intros m a x Hx; simpl; [reflexivity|].
  rewrite lookup_delete_ne by lia. apply IH. lia.
Qed.

Lemma unmap_bytes_in (n : nat) :
  forall (m : gmap Z byte) (a x : Z),
    a <= x < a + Z.of_nat n -> unmap_bytes m a n !! x = None.
Proof.
  induction n as [|n IH]; intros m a x Hx; simpl; [lia|].
  destruct (Z.eq_dec x a) as [->|Hne].
  - apply lookup_delete_eq.
  - rewrite lookup_delete_ne by lia. apply IH. lia.
Qed.

Lemma store_bytes_out (bs : list byte) :
  forall (m m' : gmap Z byte) (a x : Z),
    store_bytes m a bs = Some m' ->
    ~ (a <= x < a + Z.of_nat (length bs)) ->
    m' !! x = m !! x.
Proof.
  induction bs as [|b bs IH]; intros m m' a x Hs Hx; simpl in *.
  - now injection Hs as <-.
  - destruct (m !! a); [|discriminate].
    rewrite (IH _ _ _ x Hs) by lia. apply lookup_insert_ne. lia.
Qed.

Lemma store_bytes_in (bs : list byte) :
  forall (m m' : gmap Z byte) (a : Z) (k : nat),
    store_bytes m a bs = Some m' ->
    (k < length bs)%nat ->
    m' !! (a + Z.of_nat k) = bs !! k.
Proof.
  induction bs as [|b bs IH]; intros m m' a k Hs Hk; simpl in *; [lia|].
  destruct (m !! a); [|discriminate].
  destruct k as [|k].
  - rewrite Z.add_0_r.
    rewrite (store_bytes_out bs _ _ _ a Hs) by lia. apply lookup_insert_eq.
  - replace (a + Z.of_nat (S k)) with (a + 1 + Z.of_nat k) by lia.
    apply (IH _ _ _ _ Hs). lia.
Qed.

Lemma store_bytes_succeeds (bs : list byte) :
  forall (m : gmap Z byte) (a : Z),
    (forall x, a <= x < a + Z.of_nat (length bs) -> is_Some (m !! x)) ->
    is_Some (store_bytes m a bs).
Proof.
  induction bs as [|b bs IH]; intros m a Hv; simpl in *; [eauto|].
  destruct (Hv a) as [b0 Hb0]; [lia|]. rewrite Hb0.
  apply IH. intros x Hx. rewrite lookup_insert_ne by lia. apply Hv. lia.
Qed.

Lemma load_bytes_in (bs : list byte) :
  forall (m : gmap Z byte) (a : Z),
    (forall k : nat, (k < length bs)%nat ->
                     m !! (a + Z.of_nat k) = bs !! k) ->
    load_bytes m a (length bs) = Some bs.
Proof.
  induction bs as [|b bs IH]; intros m a Hl; simpl in *; [reflexivity|].
  pose proof (Hl 0%nat) as H0. rewrite Z.add_0_r in H0.
  rewrite H0 by lia. simpl.
  rewrite IH; [reflexivity|].
  intros k Hk. specialize (Hl (S k)).
  replace (a + 1 + Z.of_nat k) with (a + Z.of_nat (S k)) by lia.
  apply Hl. lia.
Qed.

Lemma load_bytes_ext (n : nat) :
  forall (m m' : gmap Z byte) (a : Z),
    (forall x, a <= x < a + Z.of_nat n -> m' !! x = m !! x) ->
    load_bytes m' a n = load_bytes m a n.
Proof.
  induction n as [|n IH]; intros m m' a He; simpl; [reflexivity|].
  rewrite (He a) by lia.
  rewrite (IH m m' (a + 1)); [reflexivity|].
  intros x Hx. apply He. lia.
Qed.

Lemma load_bytes_succeeds (n : nat) :
  forall (m : gmap Z byte) (a : Z),
    (forall x, a <= x < a + Z.of_nat n -> is_Some (m !! x)) ->
    is_Some (load_bytes m a n).
Proof.
  induction n as [|n IH]; intros m a Hv; simpl; [eauto|].
  destruct (Hv a) as [b Hb]; [lia|]. rewrite Hb.
  destruct (IH m (a + 1)) as [bs Hbs].
  - intros x Hx. apply Hv. lia.
  - rewrite Hbs. eauto.
Qed.

(** The bytes of [n] copies of [e], one after the other. *)
Lemma lookup_concat_repeat (e : list byte) (i : nat) :
  forall (n k : nat),
    (i < n)%nat -> (k < length e)%nat ->
    concat (repeat e n) !! (i * length e + k)%nat = e !! k.
Proof.
  induction i as [|i IH]; intros n k Hi Hk;
    (destruct n as [|n]; [lia|]); simpl.
  - now apply lookup_app_l.
  - rewrite lookup_app_r by lia.
    replace (length e + i * length e + k - length e)%nat
      with (i * length e + k)%nat by lia.
    apply IH; lia.
Qed.

Lemma length_concat_repeat (e : list byte) (n : nat) :
  length (concat (repeat e n)) = (n * length e)%nat.
Proof.
  induction n as [|n IH]; simpl; [reflexivity|].
  now rewrite length_app, IH.
Qed.

(** ** Objects in storage *)

Section Elements.
Context {T : Type} `{ElemLaws T}.

Lemma encode_length_nat (v : T) : length (encode v) = Z.to_nat sizeof.
Proof. rewrite <- (encode_length v). now rewrite Nat2Z.id. Qed.

Lemma store_load (h : Heap) (a : Z) (v : T) :
  valid_range h a sizeof ->
  exists h',
    store h a v = Some h'
    /\ load T h' a = Some v
    /\ (forall x, ~ (a <= x < a + sizeof) -> storage h' !! x = storage h !! x)
    /\ (forall x, is_Some (storage h !! x) -> is_Some (storage h' !! x))
    /\ blocks h' = blocks h
    /\ released h' = released h.
Proof.
  intros Hv. pose proof (encode_length v) as Hlen.
  destruct (store_bytes_succeeds (encode v) (storage h) a) as [m' Hm'].
  { intros x Hx. apply Hv. lia. }
  exists (mkHeap m' (blocks h) (released h)).
  assert (Hout : forall x, ~ (a <= x < a + sizeof) ->
                           m' !! x = storage h !! x).
  { intros x Hx. apply (store_bytes_out _ _ _ _ _ Hm'). lia. }
  unfold store. rewrite Hm'. repeat split; try assumption.
  - unfold load; cbn. rewrite <- (encode_length_nat v).
    rewrite load_bytes_in; [now rewrite decode_encode|].
    intros k Hk. now apply (store_bytes_in _ _ _ _ _ Hm').
  - intros x Hx; cbn.
    destruct (decide (a <= x < a + sizeof)) as [Hin|Hnin].
    + replace x with (a + Z.of_nat (Z.to_nat (x - a))) by lia.
      rewrite (store_bytes_in _ _ _ _ _ Hm') by lia.
      apply lookup_lt_is_Some_2. lia.
    + now rewrite Hout.
Qed.

Lemma load_frame (h h' : Heap) (a : Z) :
  (forall x, a <= x < a + sizeof -> storage h' !! x = storage h !! x) ->
  load T h' a = load T h a.
Proof.
  intros He. unfold load. rewrite (load_bytes_ext _ (storage h) (storage h')).
  - reflexivity.
  - intros x Hx. apply He. pose proof sizeof_pos. lia.
Qed.

Lemma load_valid (h : Heap) (a : Z) :
  valid_range h a sizeof -> is_Some (load T h a).
Proof.
  intros Hv. unfold load.
  destruct (load_bytes_succeeds (Z.to_nat sizeof) (storage h) a) as [bs Hbs].
  - intros x Hx. apply Hv. pose proof sizeof_pos. lia.
  - rewrite Hbs. eauto.
Qed.

(** The address of element [i] of an array of [n] elements at [p]. *)
Lemma elem_addr (p n i : Z) :
  0 <= p -> p + sizeof * n <= size_modulus -> 0 <= i < n ->
  wrap (p + sizeof * i) = p + sizeof * i
  /\ p <= p + sizeof * i
  /\ p + sizeof * i + sizeof <= p + sizeof * n.
Proof.
  intros Hp Hn Hi. pose proof sizeof_pos as Hs.
  assert (sizeof * i + sizeof <= sizeof * n) by nia.
  assert (0 <= sizeof * i) by nia.
  split; [apply wrap_small; lia | lia].
Qed.

(** Reading an element of valid storage gives a value. *)
Lemma ptr_read (h : Heap) (p n i : Z) :
  0 <= p -> p + sizeof * n <= size_modulus ->
  valid_range h p (sizeof * n) -> 0 <= i < n ->
  exists v, ptr.index (ptr.mk p) i h = Some (v, h)
            /\ load T h (p + sizeof * i) = Some v.
Proof.
  intros Hp Hn Hv Hi.
  destruct (elem_addr p n i Hp Hn Hi) as (Ha & Hlo & Hhi).
  destruct (load_valid h (p + sizeof * i)) as [v Hl].
  { intros x Hx. apply Hv. lia. }
  exists v. split; [|exact Hl].
  unfold ptr.index, ptr.deref, ptr.add; cbn. now rewrite Ha, Hl.
Qed.

(** Writing element [i] of valid storage: the value is read back at [i],
    every other element reads as before, and the storage stays valid. *)
Lemma ptr_write_read (h : Heap) (p n i : Z) (v : T) :
  0 <= p -> p + sizeof * n <= size_modulus ->
  valid_range h p (sizeof * n) -> 0 <= i < n ->
  exists h',
    ptr.index_set (ptr.mk p) i v h = Some h'
    /\ ptr.index (ptr.mk p) i h' = Some (v, h')
    /\ (forall j, 0 <= j < n -> j <> i ->
          value_of (ptr.index (ptr.mk p) j h')
          = value_of (ptr.index (ptr.mk p) j h))
    /\ valid_range h' p (sizeof * n)
    /\ blocks h' = blocks h
    /\ released h' = released h.
Proof.
  intros Hp Hn Hv Hi. pose proof sizeof_pos as Hs.
  destruct (elem_addr p n i Hp Hn Hi) as (Ha & Hlo & Hhi).
  destruct (store_load h (p + sizeof * i) v)
    as (h' & Hst & Hld & Hout & Hsome & Hb & Hr).
  { intros x Hx. apply Hv. lia. }
  exists h'. repeat split; try assumption.
  - unfold ptr.index_set, ptr.add; cbn. now rewrite Ha.
  - unfold ptr.index, ptr.deref, ptr.add; cbn. now rewrite Ha, Hld.
  - intros j Hj Hne.
    destruct (elem_addr p n j Hp Hn Hj) as (Haj & _ & _).
    unfold ptr.index, ptr.deref, ptr.add; cbn. rewrite Haj.
    rewrite (load_frame h h').
    + now destruct (load T h (p + sizeof * j)).
    + intros x Hx. apply Hout. nia.
  - intros x Hx. apply Hsome, Hv, Hx.
Qed.
End Elements.

(** ** Allocation and release *)

Section Allocation.
Context {T : Type} `{ElemLaws T}.

Lemma new_array_spec (al : allocator) (n : Z) (h h1 : Heap) (p : ptr.t T) :
  0 <= n ->
  new_array al T n h = Some (p, h1) ->
  0 < ptr.addr p
  /\ ptr.addr p + sizeof * n <= size_modulus
  /\ valid_range h1 (ptr.addr p) (sizeof * n)
  /\ blocks h1 = <[ptr.addr p := sizeof * n]> (blocks h)
  /\ released h1 = released h
  /\ blocks h !! ptr.addr p = None
  /\ (forall x, ~ (ptr.addr p <= x < ptr.addr p + sizeof * n) ->
        storage h1 !! x = storage h !! x)
  /\ (forall d i, default_init = Some d -> 0 <= i < n ->
        load T h1 (ptr.addr p + sizeof * i) = Some d).
Proof.
  intros Hn Hnew. pose proof sizeof_pos as Hs. unfold new_array in Hnew.
  destruct (size_modulus <=? sizeof * n); [discriminate|].
  destruct (place al h (sizeof * n)) as [a|]; [|discriminate].
  destruct (fresh h a (sizeof * n)) eqn:Hfresh; [|discriminate].
  unfold fresh in Hfresh.
  apply andb_true_iff in Hfresh as [Hfresh Hblk].
  apply andb_true_iff in Hfresh as [Hfresh _].
  apply andb_true_iff in Hfresh as [Hpos Hend].
  apply Z.ltb_lt in Hpos. apply Z.leb_le in Hend.
  destruct (blocks h !! a) eqn:Hba; [discriminate|].
  injection Hnew as <- <-. cbn [ptr.addr storage blocks released].
  set (init := match default_init with
               | Some d => concat (repeat (encode d) (Z.to_nat n))
               | None => map (fun k => junk al (a + Z.of_nat k))
                           (seq 0 (Z.to_nat (sizeof * n)))
               end).
  assert (Hlen : Z.of_nat (length init) = sizeof * n).
  { unfold init. destruct default_init as [d|].
    - rewrite length_concat_repeat, encode_length_nat. nia.
    - rewrite length_map, length_seq. nia. }
  refine (conj Hpos (conj Hend (conj _ (conj eq_refl (conj eq_refl
            (conj Hba (conj _ _))))))).
  - intros x Hx. cbn [storage].
    replace x with (a + Z.of_nat (Z.to_nat (x - a))) by lia.
    rewrite map_bytes_in by lia. apply lookup_lt_is_Some_2. lia.
  - intros x Hx. apply map_bytes_out. lia.
  - intros d i Hd Hi. unfold load; cbn [storage].
    rewrite <- (encode_length_nat d).
    rewrite load_bytes_in; [now rewrite decode_encode|].
    intros k Hk. pose proof (encode_length_nat d) as He.
    replace (a + sizeof * i + Z.of_nat k)
      with (a + Z.of_nat (Z.to_nat i * length (encode d) + k)) by nia.
    rewrite map_bytes_in by nia.
    unfold init. rewrite Hd. apply lookup_concat_repeat; lia.
Qed.

Lemma delete_array_live (h : Heap) (p : ptr.t T) (len : Z) :
  ptr.addr p <> 0 ->
  blocks h !! ptr.addr p = Some len ->
  delete_array p h
  = Some (mkHeap (unmap_bytes (storage h) (ptr.addr p) (Z.to_nat len))
                 (delete (ptr.addr p) (blocks h))
                 (ptr.addr p :: released h)).
Proof.
  intros Hp Hb. unfold delete_array.
  destruct (Z.eqb_spec (ptr.addr p) 0) as [|_]; [contradiction|].
  now rewrite Hb.
Qed.

Lemma delete_array_dead (h : Heap) (p : ptr.t T) :
  ptr.addr p <> 0 -> blocks h !! ptr.addr p = None -> delete_array p h = None.
Proof.
  intros Hp Hb. unfold delete_array.
  destruct (Z.eqb_spec (ptr.addr p) 0) as [|_]; [contradiction|].
  now rewrite Hb.
Qed.

(** What constructing an owning array establishes. *)
Lemma array_new_spec (al : allocator) (n : Z) (h h1 : Heap) (a : array.t T) :
  0 <= n ->
  array.new_ al n h = Some (a, h1) ->
  a = array.mk (array_view.mk (array.begin a) n)
  /\ new_array al T n h = Some (array.begin a, h1).
Proof.
  intros Hn Hnew. unfold array.new_ in Hnew.
  destruct (new_array al T n h) as [[p h']|] eqn:Ha; [|discriminate].
  injection Hnew as <- <-. now split.
Qed.
End Allocation.

#[export] Instance uchar_laws : ElemLaws uchar.
Proof. split; intros; cbn; try reflexivity; rewrite ?size_modulus_eq; lia. Qed.

#[export] Instance uint16_laws : ElemLaws uint16.
Proof.
  split; intros; cbn; try reflexivity; rewrite ?size_modulus_eq; try lia.
  now destruct v.
Qed.

#[export] Instance zeroed_laws : ElemLaws zeroed.
Proof.
  split; intros; cbn; try reflexivity; rewrite ?size_modulus_eq; try lia.
  now destruct v.
Qed.

(** ** Owning arrays *)

(** C2.  Constructing an owning array of length [n] allocates a block of
    [n * sizeof(T)] bytes that holds [n] readable elements, each the
    default-constructed value when [T] has a default constructor.  In any
    later state in which that storage is still there, a value written
    through the indexing operator at an index [i] in [0 .. n-1] is the value
    read back at [i], and the elements at the other indices read as before
    the write. *)
Theorem array_elements_independently_writable :
  forall (T : Type) `{ElemLaws T} (al : allocator) (n : Z) (h h1 : Heap)
         (a : array.t T),
    0 <= n ->
    array.new_ al n h = Some (a, h1) ->
    let p := ptr.addr (array.begin a) in
    array.size a = n
    /\ blocks h1 !! p = Some (sizeof * n)
    /\ valid_range h1 p (sizeof * n)
    /\ (forall i, 0 <= i < n ->
          exists v, array.index a i h1 = Some (v, h1)
                    /\ forall d, default_init = Some d -> v = d)
    /\ (forall (h2 : Heap) (i : Z) (v : T),
          valid_range h2 p (sizeof * n) -> 0 <= i < n ->
          exists h3,
            array.index_set a i v h2 = Some h3
            /\ array.index a i h3 = Some (v, h3)
            /\ (forall j, 0 <= j < n -> j <> i ->
                  value_of (array.index a j h3)
                  = value_of (array.index a j h2))
            /\ valid_range h3 p (sizeof * n)).
Proof.
  intros T HT HL al n h h1 a Hn Hnew p.
  destruct (array_new_spec al n h h1 a Hn Hnew) as [Ha Hp].
  destruct (new_array_spec al n h h1 _ Hn Hp)
    as (Hpos & Hend & Hv & Hb & _ & _ & _ & Hdef).
  fold p in Hpos, Hend, Hv, Hb, Hdef.
  assert (Hbase : array.begin a = ptr.mk p) by (unfold p; now destruct (array.begin a)).
  split; [now rewrite Ha|]. split; [rewrite Hb; apply lookup_insert_eq|].
  split; [exact Hv|]. split.
  - intros i Hi.
    destruct (ptr_read h1 p n i) as (v & Hr & Hl); try assumption; try lia.
    exists v. split.
    + unfold array.index, array_base.index. fold (array.begin a).
      now rewrite Hbase.
    + intros d Hd. rewrite (Hdef d i Hd Hi) in Hl. now injection Hl.
  - intros h2 i v Hv2 Hi.
    destruct (ptr_write_read h2 p n i v) as (h3 & Hw & Hr & Hf & Hv3 & _);
      try assumption; try lia.
    exists h3. unfold array.index_set, array.index, array_base.index_set,
      array_base.index. fold (array.begin a). rewrite Hbase.
    now repeat split.
Qed.

Lemma array_elements_independently_writable_witness :
  match array.new_ (T := uint16) bump 3 empty_heap with
  | Some (a, h1) =>
      array.size a = 3
      /\ exists h3,
           array.index_set a 1 (U16 x01 x02) h1 = Some h3
           /\ array.index a 1 h3 = Some (U16 x01 x02, h3)
           /\ value_of (array.index a 0 h3) = value_of (array.index a 0 h1)
  | None => False
  end.
Proof.
  destruct (array.new_ (T := uint16) bump 3 empty_heap) as [[a h1]|] eqn:E.
  - destruct (array_elements_independently_writable uint16 bump 3
                empty_heap h1 a) as (Hs & _ & Hv & _ & Hw); [lia | exact E |].
    split; [exact Hs|].
    destruct (Hw h1 1 (U16 x01 x02) Hv) as (h3 & Hset & Hget & Hf & _);
      [lia|].
    exists h3. split; [exact Hset|]. split; [exact Hget|].
    apply Hf; lia.
  - vm_compute in E. discriminate E.
Defined.

(** C3.  A mutable view constructed over an owning array -- from its
    [begin()] and [size()], which is also what the array's base subobject
    is -- has the array's size and reads the array's elements; a write
    through the view at a valid index is read back through the array, and a
    write through the array is read back through the view: both address
    the same storage. *)
Theorem view_aliases_array :
  forall (T : Type) `{ElemLaws T} (al : allocator) (n : Z) (h h1 : Heap)
         (a : array.t T),
    0 <= n ->
    array.new_ al n h = Some (a, h1) ->
    let view : array_view.t T :=
      array_view.mk (array.begin a) (array.size a) in
    let p := ptr.addr (array.begin a) in
    view = array.base a
    /\ array_base.size view = array.size a
    /\ array_base.begin view = array.begin a
    /\ (forall i h2, array_base.index view i h2 = array.index a i h2)
    /\ (forall i, 0 <= i < n -> exists v,
          array_base.index view i h1 = Some (v, h1)
          /\ array.index a i h1 = Some (v, h1))
    /\ (forall (h2 : Heap) (i : Z) (v : T),
          valid_range h2 p (sizeof * n) -> 0 <= i < n ->
          (exists h3, array_base.index_set view i v h2 = Some h3
                      /\ array.index a i h3 = Some (v, h3))
          /\ (exists h3, array.index_set a i v h2 = Some h3
                         /\ array_base.index view i h3 = Some (v, h3))).
Proof.
  intros T HT HL al n h h1 a Hn Hnew view p.
  destruct (array_new_spec al n h h1 a Hn Hnew) as [Ha Hp].
  destruct (new_array_spec al n h h1 _ Hn Hp) as (Hpos & Hend & Hv1 & _).
  fold p in Hpos, Hend, Hv1.
  assert (Hbase : array.begin a = ptr.mk p)
    by (unfold p; now destruct (array.begin a)).
  assert (Hview : view = array.base a).
  { unfold view. now destruct a as [[q m]]. }
  split; [exact Hview|]. rewrite Hview.
  split; [reflexivity|]. split; [reflexivity|]. split; [reflexivity|].
  unfold array.index_set, array.index, array_base.index_set,
    array_base.index. fold (array.begin a). rewrite Hbase. split.
  - intros i Hi.
    destruct (ptr_read h1 p n i) as (v & Hr & _); try assumption; try lia.
    now exists v.
  - intros h2 i v Hv Hi.
    destruct (ptr_write_read h2 p n i v) as (h3 & Hset & Hget & _);
      try assumption; try lia.
    split; exists h3; now split.
Qed.

Lemma view_aliases_array_witness :
  match array.new_ (T := uint16) bump 3 empty_heap with
  | Some (a, h1) =>
      let view := array_view.mk (array.begin a) (array.size a) in
      array_base.size view = array.size a
      /\ (exists h3, array_base.index_set view 2 (U16 x0a x0b) h1 = Some h3
                     /\ array.index a 2 h3 = Some (U16 x0a x0b, h3))
      /\ (exists h3, array.index_set a 0 (U16 x0c x0d) h1 = Some h3
                     /\ array_base.index view 0 h3 = Some (U16 x0c x0d, h3))
  | None => False
  end.
Proof.
  destruct (array.new_ (T := uint16) bump 3 empty_heap) as [[a h1]|] eqn:E.
  - destruct (new_array_spec bump 3 empty_heap h1 (array.begin a))
      as (_ & _ & Hv & _); [lia | |].
    { apply (array_new_spec bump 3 empty_heap h1 a); [lia | exact E]. }
    destruct (view_aliases_array uint16 bump 3 empty_heap h1 a)
      as (_ & Hs & _ & _ & _ & Hw); [lia | exact E |].
    cbv zeta. split; [exact Hs|]. split.
    + apply (Hw h1 2 (U16 x0a x0b) Hv). lia.
    + apply (Hw h1 0 (U16 x0c x0d) Hv). lia.
  - vm_compute in E. discriminate E.
Defined.

(** C9.  The destructor of an owning array hands the array's block to
    [delete[]] once: the block is no longer live, its bytes are no longer
    storage, every other byte is untouched, and there is nothing left for
    a second destruction to release.  No non-owning sequence has a
    destructor of its own: destroying one -- a view over the array, or any
    sequence over either base -- leaves the state as it was. *)
Theorem array_destroy_releases_once :
  forall (T : Type) `{ElemLaws T} (al : allocator) (n : Z) (h h1 : Heap)
         (a : array.t T),
    0 <= n ->
    array.new_ al n h = Some (a, h1) ->
    let p := ptr.addr (array.begin a) in
    blocks h1 !! p = Some (sizeof * n)
    /\ (forall h2 : Heap,
          blocks h2 !! p = Some (sizeof * n) ->
          exists h3,
            array.destroy a h2 = Some h3
            /\ released h3 = p :: released h2
            /\ blocks h3 = delete p (blocks h2)
            /\ (forall x, p <= x < p + sizeof * n -> storage h3 !! x = None)
            /\ (forall x, ~ (p <= x < p + sizeof * n) ->
                  storage h3 !! x = storage h2 !! x)
            /\ array.destroy a h3 = None)
    /\ (forall h2 : Heap,
          array_base.destroy
            (array_view.mk (array.begin a) (array.size a)) h2 = Some h2
          /\ const_array_base.destroy
               (const_array_view.mk (to_const (array.begin a)) (array.size a))
               h2 = Some h2)
    /\ (forall (W V S : Type) (s : const_array_base.t V S) (w : W),
          const_array_base.destroy s w = Some w)
    /\ (forall (W V I CI : Type) (s : array_base.t V I CI) (w : W),
          array_base.destroy s w = Some w)
    /\ (forall (V : Type) (B : Z) (m : array_mem_stride.t V B) (h2 : Heap),
          array_mem_stride.destroy m h2 = Some h2).
Proof.
  intros T HT HL al n h h1 a Hn Hnew p.
  destruct (array_new_spec al n h h1 a Hn Hnew) as [Ha Hp].
  destruct (new_array_spec al n h h1 _ Hn Hp)
    as (Hpos & _ & _ & Hb & _).
  fold p in Hpos, Hb.
  split; [rewrite Hb; apply lookup_insert_eq|].
  split; [|repeat split].
  intros h2 Hlive.
  assert (Hne : ptr.addr (array.begin a) <> 0) by (fold p; lia).
  unfold array.destroy. fold (array.begin a).
  rewrite (delete_array_live h2 (array.begin a) (sizeof * n) Hne Hlive).
  fold p. eexists. split; [reflexivity|]. cbn [released blocks storage].
  split; [reflexivity|]. split; [reflexivity|]. split; [|split].
  - intros x Hx. apply unmap_bytes_in. pose proof sizeof_pos. nia.
  - intros x Hx. apply unmap_bytes_out. pose proof sizeof_pos. nia.
  - rewrite delete_array_dead; [reflexivity | exact Hne |].
    cbn [blocks]. apply lookup_delete_eq.
Qed.

Lemma array_destroy_releases_once_witness :
  match array.new_ (T := uint16) bump 3 empty_heap with
  | Some (a, h1) =>
      exists h3,
        array.destroy a h1 = Some h3
        /\ released h3 = [ptr.addr (array.begin a)]
        /\ array.destroy a h3 = None
  | None => False
  end.
Proof.
  destruct (array.new_ (T := uint16) bump 3 empty_heap) as [[a h1]|] eqn:E.
  - destruct (array_destroy_releases_once uint16 bump 3 empty_heap h1 a)
      as (Hlive & Hd & _); [lia | exact E |].
    destruct (Hd h1 Hlive) as (h3 & Hdes & Hrel & _ & _ & _ & Htwice).
    exists h3. split; [exact Hdes|]. split; [|exact Htwice].
    rewrite Hrel. f_equal.
    vm_compute in E. injection E as <- <-. reflexivity.
  - vm_compute in E. discriminate E.
Defined.

(** Construction succeeds whenever the request fits the address space and
    the allocator places the block at an acceptable address. *)
Lemma array_new_succeeds (T : Type) `{Elem T} (al : allocator) (n p : Z)
  (h : Heap) :
  sizeof * n < size_modulus ->
  place al h (sizeof * n) = Some p ->
  fresh h p (sizeof * n) = true ->
  exists (a : array.t T) (h1 : Heap),
    array.new_ al n h = Some (a, h1)
    /\ array.begin a = ptr.mk p /\ array.size a = n.
Proof.
  intros Hfit Hplace Hfresh. unfold array.new_, new_array.
  destruct (Z.leb_spec size_modulus (sizeof * n)) as [Hle|_]; [lia|].
  rewrite Hplace, Hfresh. eexists _, _. now repeat split.
Qed.

(** The example allocator serves a first request on an empty heap. *)
Example bump_first_block :
  place bump empty_heap 6 = Some 16 /\ fresh empty_heap 16 6 = true.
Proof. split; reflexivity. Qed.

(** * Further properties of the header *)

(** ** The postfix increment *)

(** X12.  The postfix [operator++(int)] of each of the four iterator
    classes calls itself on the same object before it can return: at no
    call depth does it produce a result.  (The prefix form, which the
    traversal uses, always does.) *)
Theorem post_incr_never_returns :
  (forall T B (c : mem_stride_iterator.t T B) fuel, post_incr fuel c = None)
  /\ (forall T B (c : const_mem_stride_iterator.t T B) fuel,
        post_incr fuel c = None)
  /\ (forall Env R (c : func_array_iterator.t Env R) fuel,
        post_incr fuel c = None)
  /\ (forall IterT (c : const_strided_iterator.t IterT) fuel,
        post_incr fuel c = None).
Proof.
  assert (Hgen : forall (C : Type) (fuel : nat) (c : C),
             post_incr fuel c = None).
  { intros C fuel c. induction fuel as [|fuel IH]; simpl; [reflexivity|].
    now rewrite IH. }
  repeat split; intros; apply Hgen.
Qed.

(** ** Traversal never overruns, and what it visits *)

Section Traversal.
Context {W T C : Type} `{CursorLaws W T C}.

(** From a cursor [m] steps before [e] the walk ends within [m] steps,
    whatever the step is. *)
Lemma walk_bounded (m : nat) :
  forall (c e : C) (p s k : Z) (fuel : nat),
    pos c = wrap (p + s * k) -> step c = s ->
    pos e = wrap (p + s * (k + Z.of_nat m)) ->
    (m < fuel)%nat ->
    exists l, walk fuel c e = Some l /\ (length l <= m)%nat.
Proof.
  induction m as [|m IH]; intros c e p s k fuel Hc Hs He Hf;
    destruct fuel as [|fuel]; try lia; simpl; unfold cur_neqb;
    rewrite eqb_pos, Hc, He.
  - replace (k + Z.of_nat 0) with k by lia. rewrite Z.eqb_refl.
    exists []. split; [reflexivity | simpl; lia].
  - destruct (Z.eqb_spec (wrap (p + s * k))
                (wrap (p + s * (k + Z.of_nat (S m))))) as [_|_]; simpl.
    + exists []. split; [reflexivity | simpl; lia].
    + destruct (IH (incr c) e p s (k + 1) fuel) as (l & Hl & Hlen).
      * rewrite pos_incr, Hc, Hs. wrap_eq.
      * now rewrite step_incr.
      * rewrite He. f_equal. lia.
      * lia.
      * rewrite Hl. exists (c :: l). split; [reflexivity | simpl; lia].
Qed.

Lemma walk_add_bounded (c : C) (n : Z) (fuel : nat) :
  is_size_t (pos c) -> 0 <= n -> (Z.to_nat n < fuel)%nat ->
  exists l, walk fuel c (add c n) = Some l /\ Z.of_nat (length l) <= n.
Proof.
  intros Hp Hn Hf.
  destruct (walk_bounded (Z.to_nat n) c (add c n) (pos c) (step c) 0 fuel)
    as (l & Hl & Hlen); try lia; try reflexivity.
  - rewrite Z.mul_0_r, Z.add_0_r. symmetry. now apply wrap_small.
  - rewrite pos_add, Z.add_0_l, Z2Nat.id by lia. reflexivity.
  - exists l. split; [exact Hl | lia].
Qed.

(** [begin() == end()] exactly when the sequence is empty, provided the
    cursor moves and the extent does not wrap. *)
Lemma eqb_add_zero (c : C) (n : Z) :
  is_size_t (pos c) -> 0 <= n -> 0 < step c -> step c * n < size_modulus ->
  cur_eqb c (add c n) = (n =? 0).
Proof.
  intros Hp Hn Hs Hb. rewrite eqb_pos, pos_add.
  destruct (Z.eqb_spec n 0) as [->|Hne].
  - rewrite Z.mul_0_r, Z.add_0_r, (wrap_small _ Hp). apply Z.eqb_refl.
  - apply Z.eqb_neq.
    assert (Hd : wrap (pos c + step c * 0) <> wrap (pos c + step c * n))
      by (apply wrap_inj_small; lia).
    now rewrite Z.mul_0_r, Z.add_0_r, (wrap_small _ Hp) in Hd.
Qed.

Context `{!AdvanceLaws W T C}.

Lemma iterates_add (b : C) (n : nat) :
  forall j : nat,
    iterates n (add b (Z.of_nat j))
    = map (fun k : nat => add b (Z.of_nat k)) (seq j n).
Proof.
  induction n as [|n IH]; intros j; simpl; [reflexivity|].
  f_equal. rewrite incr_add, add_add.
  replace (Z.of_nat j + 1) with (Z.of_nat (S j)) by lia.
  apply IH.
Qed.

Lemma deref_all_iterates (b : C) (n : nat) :
  forall (j : Z) (w : W),
    deref_all (iterates n (add b j)) w = index_from b j n w.
Proof.
  induction n as [|n IH]; intros j w; simpl; [reflexivity|].
  rewrite deref_add. destruct (index b j w) as [[v w']|]; [|reflexivity].
  now rewrite incr_add, add_add, IH.
Qed.
End Traversal.

Section SequenceTraversal.
Context {W T S I CI : Type}.
Context `{CursorLaws W T S} `{CursorLaws W T I} `{CursorLaws W T CI}.
Context `{MutCursor W T I} `{ToConst I CI}.
Context `{!AdvanceLaws W T S} `{!AdvanceLaws W T I}.

(** X1.  Whatever the stride, byte offset or size, the loop from
    [begin()] to [end()] of a sequence ends, and its body runs at no more
    than [size()] cursors: traversal never steps past [end()]. *)
Theorem traversal_never_overruns :
  (forall (s : const_array_base.t T S) (fuel : nat),
     is_size_t (pos (const_array_base.begin s)) ->
     0 <= const_array_base.size s ->
     (Z.to_nat (const_array_base.size s) < fuel)%nat ->
     exists l,
       walk fuel (const_array_base.begin s) (const_array_base.end_ s) = Some l
       /\ Z.of_nat (length l) <= const_array_base.size s)
  /\ (forall (s : array_base.t T I CI) (fuel : nat),
        is_size_t (pos (array_base.begin s)) ->
        0 <= array_base.size s ->
        (Z.to_nat (array_base.size s) < fuel)%nat ->
        exists l,
          walk fuel (array_base.begin s) (array_base.end_ s) = Some l
          /\ Z.of_nat (length l) <= array_base.size s).
Proof.
  split; intros s fuel Hp Hn Hf; now apply walk_add_bounded.
Qed.

(** X2.  When [begin()] is a proper cursor ([begin() + 0] is [begin()]),
    the step is not zero and the extent does not wrap, the cursors the
    loop visits are [begin() + 0], [begin() + 1], ..., [begin() + (size()-1)]:
    repeated [++] and [+ n] reach the same cursors. *)
Theorem traversal_visits_offsets :
  (forall (s : const_array_base.t T S) (fuel : nat),
     let b := const_array_base.begin s in
     let n := const_array_base.size s in
     add b 0 = b -> is_size_t (pos b) -> 0 <= n -> 0 < step b ->
     step b * n < size_modulus -> (Z.to_nat n < fuel)%nat ->
     walk fuel b (const_array_base.end_ s)
     = Some (map (fun k : nat => add b (Z.of_nat k)) (seq 0 (Z.to_nat n))))
  /\ (forall (s : array_base.t T I CI) (fuel : nat),
        let b := array_base.begin s in
        let n := array_base.size s in
        add b 0 = b -> is_size_t (pos b) -> 0 <= n -> 0 < step b ->
        step b * n < size_modulus -> (Z.to_nat n < fuel)%nat ->
        walk fuel b (array_base.end_ s)
        = Some (map (fun k : nat => add b (Z.of_nat k))
                  (seq 0 (Z.to_nat n)))).
Proof.
  split; intros s fuel b n Hb Hp Hn Hs Hw Hf.
  - destruct (walk_add b n Hp Hn Hs Hw fuel Hf) as (l & Hl & _ & ->).
    rewrite <- (iterates_add b (Z.to_nat n) 0).
    change (Z.of_nat 0) with 0.
    now rewrite Hb.
  - destruct (walk_add b n Hp Hn Hs Hw fuel Hf) as (l & Hl & _ & ->).
    rewrite <- (iterates_add b (Z.to_nat n) 0).
    change (Z.of_nat 0) with 0.
    now rewrite Hb.
Qed.

(** X3.  Under the same conditions, dereferencing the cursor at each step
    of the loop reads [begin()[0]], [begin()[1]], ..., [begin()[size()-1]]
    in this order, with the same effect on the state as the indexed reads
    through the cursor: traversal and indexing see the same elements.
    For a sequence whose cursor returns references these are [s[0]], ...,
    [s[size()-1]]. *)
Theorem traversal_reads_in_index_order :
  (forall (s : const_array_base.t T S) (fuel : nat),
     let b := const_array_base.begin s in
     let n := const_array_base.size s in
     add b 0 = b -> is_size_t (pos b) -> 0 <= n -> 0 < step b ->
     step b * n < size_modulus -> (Z.to_nat n < fuel)%nat ->
     exists l,
       walk fuel b (const_array_base.end_ s) = Some l
       /\ (forall w, deref_all l w = index_from b 0 (Z.to_nat n) w)
       /\ (index_by_value (C := S) = false ->
           forall i w, index b i w = const_array_base.index s i w))
  /\ (forall (s : array_base.t T I CI) (fuel : nat),
        let b := array_base.begin s in
        let n := array_base.size s in
        add b 0 = b -> is_size_t (pos b) -> 0 <= n -> 0 < step b ->
        step b * n < size_modulus -> (Z.to_nat n < fuel)%nat ->
        exists l,
          walk fuel b (array_base.end_ s) = Some l
          /\ (forall w, deref_all l w = index_from b 0 (Z.to_nat n) w)
          /\ (forall i w, index b i w = array_base.index s i w)).
Proof.
  split; intros s fuel b n Hb Hp Hn Hs Hw Hf.
  - destruct (walk_add b n Hp Hn Hs Hw fuel Hf) as (l & Hl & _ & ->).
    eexists. split; [exact Hl|]. split.
    + intros w. rewrite <- Hb at 1. apply deref_all_iterates.
    + intros Href i w. unfold const_array_base.index. now rewrite Href.
  - destruct (walk_add b n Hp Hn Hs Hw fuel Hf) as (l & Hl & _ & ->).
    eexists. split; [exact Hl|]. split; [|reflexivity].
    intros w. rewrite <- Hb at 1. apply deref_all_iterates.
Qed.

(** X4.  An empty sequence has [begin() == end()].  Conversely, when the
    step is not zero and the extent does not wrap, [begin() == end()]
    holds exactly when [empty()] does. *)
Theorem empty_iff_begin_is_end :
  (forall s : const_array_base.t T S,
     let b := const_array_base.begin s in
     let n := const_array_base.size s in
     (is_size_t (pos b) -> const_array_base.empty s = true ->
      cur_eqb b (const_array_base.end_ s) = true)
     /\ (is_size_t (pos b) -> 0 <= n -> 0 < step b ->
         step b * n < size_modulus ->
         cur_eqb b (const_array_base.end_ s) = const_array_base.empty s))
  /\ (forall s : array_base.t T I CI,
        let b := array_base.begin s in
        let n := array_base.size s in
        (is_size_t (pos b) -> array_base.empty s = true ->
         cur_eqb b (array_base.end_ s) = true)
        /\ (is_size_t (pos b) -> 0 <= n -> 0 < step b ->
            step b * n < size_modulus ->
            cur_eqb b (array_base.end_ s) = array_base.empty s)).
Proof.
  split; intros s b n; split.
  - intros Hp He. apply Z.eqb_eq in He.
    unfold const_array_base.end_. fold b. rewrite He.
    rewrite eqb_pos, pos_add, Z.mul_0_r, Z.add_0_r, (wrap_small _ Hp).
    apply Z.eqb_refl.
  - intros Hp Hn Hs Hw. now apply eqb_add_zero.
  - intros Hp He. apply Z.eqb_eq in He.
    unfold array_base.end_. fold b. rewrite He.
    rewrite eqb_pos, pos_add, Z.mul_0_r, Z.add_0_r, (wrap_small _ Hp).
    apply Z.eqb_refl.
  - intros Hp Hn Hs Hw. now apply eqb_add_zero.
Qed.
End SequenceTraversal.

Lemma traversal_never_overruns_witness :
  let s := const_array_stride.mk2 (ValueT := uchar) (ptr.mk (T := uchar) 16) 3 in
  exists l,
    walk 4 (const_array_base.begin s) (const_array_base.end_ s) = Some l
    /\ Z.of_nat (length l) <= 3.
Proof.
  cbv zeta.
  destruct (traversal_never_overruns
              (S := const_strided_iterator.t (ptr.t uchar))
              (I := ptr.t uchar) (CI := const_ptr.t uchar)) as [Hc _].
  apply (Hc (const_array_stride.mk2 (ptr.mk 16) 3) 4%nat); range_conds.
Defined.

Lemma traversal_visits_offsets_witness :
  let v := array_view.mk (ptr.mk (T := uint16) 16) 3 in
  walk 4 (array_base.begin v) (array_base.end_ v)
  = Some [ptr.mk 16; ptr.mk 18; ptr.mk 20].
Proof.
  cbv zeta.
  destruct (traversal_visits_offsets
              (S := const_ptr.t uint16)
              (I := ptr.t uint16) (CI := const_ptr.t uint16)) as [_ Hm].
  etransitivity.
  - apply (Hm (array_view.mk (ptr.mk 16) 3) 4%nat);
      first [reflexivity | range_conds].
  - reflexivity.
Defined.

Lemma traversal_reads_in_index_order_witness :
  let s : const_array_mem_stride.t uint16 4 :=
    const_array_mem_stride.mk (const_ptr.mk 16) 3 in
  exists l,
    walk 4 (const_array_base.begin s) (const_array_base.end_ s) = Some l
    /\ deref_all l example_heap
       = Some ([U16 x01 x02; U16 x05 x06; U16 x09 x0a], example_heap).
Proof.
  cbv zeta.
  destruct (traversal_reads_in_index_order
              (S := const_mem_stride_iterator.t uint16 4)
              (I := ptr.t uint16) (CI := const_ptr.t uint16)) as [Hc _].
  destruct (Hc (const_array_mem_stride.mk (const_ptr.mk 16) 3) 4%nat)
    as (l & Hl & Hd & _); try first [reflexivity | range_conds].
  exists l. split; [exact Hl|]. rewrite Hd. vm_compute. reflexivity.
Defined.

Lemma empty_iff_begin_is_end_witness :
  let e := array_view.mk (ptr.mk (T := uint16) 0) 0 in
  let v := array_view.mk (ptr.mk (T := uint16) 16) 3 in
  cur_eqb (array_base.begin e) (array_base.end_ e) = true
  /\ cur_eqb (array_base.begin v) (array_base.end_ v) = array_base.empty v.
Proof.
  cbv zeta.
  destruct (empty_iff_begin_is_end
              (S := const_ptr.t uint16)
              (I := ptr.t uint16) (CI := const_ptr.t uint16)) as [_ Hm].
  split.
  - apply (Hm (array_view.mk (ptr.mk 0) 0)); first [reflexivity | range_conds].
  - apply (Hm (array_view.mk (ptr.mk 16) 3)); range_conds.
Defined.

(** ** Distances that count positions *)

Lemma ptr_sub_add {T} `{Elem T} (p : ptr.t T) (n : Z) :
  0 < sizeof -> 0 <= n -> sizeof * n < 2 ^ 63 ->
  ptr.sub (ptr.add p n) p = Some n.
Proof.
  intros Hs Hn Hfit. unfold ptr.sub, ptr.add; cbn. f_equal.
  rewrite (to_ptrdiff_congr _ (sizeof * n)).
  - rewrite to_ptrdiff_small by nia.
    rewrite Z.mul_comm. apply Z.quot_mul. lia.
  - rewrite wrap_sub_l. f_equal. ring.
Qed.

Lemma func_sub_add {Env R} (c : func_array_iterator.t Env R) (n : Z) :
  0 <= n < 2 ^ 63 ->
  func_array_iterator.sub (func_array_iterator.add c n) c = n.
Proof.
  intros Hn. unfold func_array_iterator.sub, func_array_iterator.add; cbn.
  rewrite (to_ptrdiff_congr _ n).
  - now apply to_ptrdiff_small.
  - rewrite wrap_wrap, wrap_sub_l. f_equal. ring.
Qed.

Lemma strided_sub_add {W T I} `{Cursor W T I}
  (c : const_strided_iterator.t I) (n : Z) :
  let k := const_strided_iterator._stride c in
  0 < k -> 0 <= n -> k * n < 2 ^ 63 ->
  sub (add (const_strided_iterator._iter c) (wrap (k * n)))
      (const_strided_iterator._iter c) = Some (k * n) ->
  const_strided_iterator.sub (const_strided_iterator.add c n) c = Some n.
Proof.
  intros k Hk Hn Hfit Hinner.
  unfold const_strided_iterator.sub, const_strided_iterator.add; cbn.
  fold k. rewrite Hinner.
  destruct (Z.eqb_spec k 0) as [|_]; [lia|]. f_equal.
  assert (Hm : 2 ^ 63 < size_modulus) by (rewrite size_modulus_eq; lia).
  rewrite wrap_small by nia.
  rewrite Z.mul_comm, Z.div_mul by lia.
  apply to_ptrdiff_small. nia.
Qed.

(** X5.  Unlike the byte-stride cursors, element pointers, function
    cursors and strided cursors over either measure distance in logical
    positions: [(c + n) - c] is [n] whenever the distance fits a
    [ptrdiff_t].  The distance between strided cursors divides by the
    stride: with stride 0 it has no value. *)
Theorem distance_counts_positions :
  forall (T : Type) `{Elem T} (Env R : Type),
    (forall (p : ptr.t T) n,
       0 < sizeof -> 0 <= n -> sizeof * n < 2 ^ 63 ->
       sub (add p n) p = Some n)
    /\ (forall (c : func_array_iterator.t Env R) n,
          0 <= n < 2 ^ 63 -> sub (add c n) c = Some n)
    /\ (forall (p : ptr.t T) k n,
          0 < sizeof -> 0 < k -> 0 <= n -> sizeof * (k * n) < 2 ^ 63 ->
          let c := const_strided_iterator.mk p k in
          sub (add c n) c = Some n)
    /\ (forall (f : func_array_iterator.t Env R) k n,
          0 < k -> 0 <= n -> k * n < 2 ^ 63 ->
          let c := const_strided_iterator.mk f k in
          sub (add c n) c = Some n)
    /\ (forall (p q : ptr.t T) (f g : func_array_iterator.t Env R),
          sub (const_strided_iterator.mk p 0) (const_strided_iterator.mk q 0)
          = None
          /\ sub (const_strided_iterator.mk f 0)
                 (const_strided_iterator.mk g 0) = None).
Proof.
  intros T HT Env R.
  assert (Hm : 2 ^ 63 < size_modulus) by (rewrite size_modulus_eq; lia).
  split; [|split; [|split; [|split]]].
  - intros p n Hs Hn Hfit. now apply ptr_sub_add.
  - intros c n Hn. cbn. f_equal. now apply func_sub_add.
  - intros p k n Hs Hk Hn Hfit c.
    assert (Hin : sub (add p (wrap (k * n))) p = Some (k * n)).
    { rewrite wrap_small by nia. apply ptr_sub_add; nia. }
    apply (strided_sub_add c n); cbn; first [lia | nia | exact Hin].
  - intros f k n Hk Hn Hfit c.
    assert (Hin : sub (add f (wrap (k * n))) f = Some (k * n)).
    { rewrite wrap_small by nia. cbn. f_equal. apply func_sub_add. nia. }
    apply (strided_sub_add c n); cbn; first [lia | nia | exact Hin].
  - intros p q f g. split; reflexivity.
Qed.

Lemma distance_counts_positions_witness :
  sub (add (ptr.mk (T := uint16) 16) 5) (ptr.mk 16) = Some 5
  /\ sub (add (const_strided_iterator.mk (ptr.mk (T := uint16) 16) 3) 5)
         (const_strided_iterator.mk (ptr.mk 16) 3) = Some 5.
Proof.
  destruct (distance_counts_positions uint16 unit unit)
    as (Hp & _ & Hs & _).
  split.
  - apply Hp; cbn; lia.
  - apply (Hs (ptr.mk 16) 3 5); cbn; lia.
Defined.

(** ** Byte stride equal to the element size *)

(** X6.  With the template's default byte offset, [sizeof(T)], a
    byte-stride sequence over [p] is the contiguous view over [p]: the same
    element is read and written at every index, and [end()] is at the same
    address. *)
Theorem mem_stride_default_offset_is_contiguous :
  forall (T : Type) `{Elem T} (p : const_ptr.t T) (n i : Z) (h : Heap),
    let s : const_array_mem_stride.t T sizeof :=
      const_array_mem_stride.mk p n in
    let m : array_mem_stride.t T sizeof := array_mem_stride.mk p n in
    let cv := const_array_view.mk p n in
    let v := array_view.mk (ptr.mk (const_ptr.addr p)) n in
    const_array_base.index s i h = const_array_base.index cv i h
    /\ array_base.index (array_mem_stride.base m) i h = array_base.index v i h
    /\ (forall x : T,
          array_base.index_set (array_mem_stride.base m) i x h
          = array_base.index_set v i x h)
    /\ pos (const_array_base.end_ s) = pos (const_array_base.end_ cv)
    /\ pos (array_base.end_ (array_mem_stride.base m))
       = pos (array_base.end_ v).
Proof.
  intros T HT p n i h s m cv v.
  repeat split; cbn;
    unfold const_mem_stride_iterator.index, mem_stride_iterator.index,
      mem_stride_iterator.index_set, const_ptr.index, ptr.index,
      ptr.index_set, const_ptr.deref, ptr.deref; cbn;
    now rewrite wrap_add_r.
Qed.

(** ** Composing slices and strides *)

Section Composition.
Context {W T S I CI : Type}.
Context `{CursorLaws W T S} `{CursorLaws W T I} `{CursorLaws W T CI}.
Context `{MutCursor W T I} `{ToConst I CI}.
Context `{!MutCursorLaws W T I}.

(** X7.  Read through their cursors, strided slices compose: with
    stride 1 the slice's cursor addresses the source's own elements; a
    strided slice with stride [k2] of a strided slice with stride [k1]
    addresses the same elements as the strided slice with stride
    [k1 * k2], the source's elements [i * k2 * k1]; and a strided slice of
    the subrange at [offset] addresses the source's element
    [offset + i * k] at position [i]. *)
Theorem strides_compose :
  forall (source : const_array_base.t T S) (m n k k1 k2 offset i : Z) (w : W),
    let b := const_array_base.begin source in
    let one : const_array_stride.t T S := const_array_stride.mk b n 1 in
    let inner : const_array_stride.t T S := const_array_stride.mk b m k1 in
    let outer : const_array_stride.t T (const_strided_iterator.t S) :=
      const_array_stride.mk (const_array_base.begin inner) n k2 in
    let direct : const_array_stride.t T S :=
      const_array_stride.mk b n (k1 * k2) in
    let shifted : const_array_stride.t T S :=
      const_array_stride.mk (add b offset) n k in
    index (const_array_base.begin one) i w = index b i w
    /\ index (const_array_base.begin outer) i w
       = index (const_array_base.begin direct) i w
    /\ index (const_array_base.begin outer) i w = index b (i * k2 * k1) w
    /\ index (const_array_base.begin shifted) i w
       = index b (offset + i * k) w.
Proof.
  intros source m n k k1 k2 offset i w b one inner outer direct shifted.
  cbn. unfold const_strided_iterator.index; cbn. fold b.
  assert (Hdeep : index b (wrap (wrap (i * k2) * k1)) w
                  = index b (i * k2 * k1) w).
  { rewrite index_wrap. rewrite <- (index_wrap b (wrap (i * k2) * k1)).
    rewrite <- (index_wrap b (i * k2 * k1)). f_equal. wrap_eq. }
  split; [|split; [|split]].
  - rewrite index_wrap. f_equal. lia.
  - rewrite Hdeep, index_wrap. f_equal. ring.
  - exact Hdeep.
  - rewrite index_wrap. apply index_add.
Qed.

End Composition.

Lemma strides_compose_witness :
  let source := const_array_view.mk (const_ptr.mk (T := uchar) 16) 12 in
  let b := const_array_base.begin source in
  let inner : const_array_stride.t uchar (const_ptr.t uchar) :=
    const_array_stride.mk b 6 2 in
  let outer : const_array_stride.t uchar
                (const_strided_iterator.t (const_ptr.t uchar)) :=
    const_array_stride.mk (const_array_base.begin inner) 2 3 in
  value_of (index (const_array_base.begin outer) 1 example_heap)
  = Some x07.
Proof.
  cbv zeta.
  destruct (strides_compose (S := const_ptr.t uchar)
              (const_array_view.mk (const_ptr.mk 16) 12)
              6 2 1 2 3 0 1 example_heap) as (_ & _ & Hsrc & _).
  etransitivity; [apply (f_equal value_of); exact Hsrc|].
  vm_compute. reflexivity.
Defined.


(** ** Allocation, aliasing and lifetime *)

Lemma fresh_outside (h : Heap) (p len x : Z) (b : byte) :
  fresh h p len = true -> storage h !! x = Some b -> ~ (p <= x < p + len).
Proof.
  intros Hf Hx. unfold fresh in Hf.
  apply andb_true_iff in Hf as [Hf _].
  apply andb_true_iff in Hf as [_ Hall].
  rewrite forallb_forall in Hall.
  specialize (Hall x). rewrite negb_true_iff, andb_false_iff in Hall.
  destruct Hall as [Hlo|Hhi].
  - apply (in_map fst _ (x, b)). apply list_elem_of_In.
    now apply elem_of_map_to_list.
  - apply Z.leb_gt in Hlo. lia.
  - apply Z.ltb_ge in Hhi. lia.
Qed.

Lemma new_array_fresh {T} `{Elem T} (al : allocator) (n : Z) (h h1 : Heap)
  (p : ptr.t T) :
  new_array al T n h = Some (p, h1) -> fresh h (ptr.addr p) (sizeof * n) = true.
Proof.
  unfold new_array. intros Hnew.
  destruct (size_modulus <=? sizeof * n); [discriminate|].
  destruct (place al h (sizeof * n)) as [a|]; [|discriminate].
  destruct (fresh h a (sizeof * n)) eqn:Hf; [|discriminate].
  now injection Hnew as <- _.
Qed.

Lemma load_bytes_mono (n : nat) :
  forall (m m' : gmap Z byte) (a : Z) (bs : list byte),
    (forall x b, m !! x = Some b -> m' !! x = Some b) ->
    load_bytes m a n = Some bs -> load_bytes m' a n = Some bs.
Proof.
  induction n as [|n IH]; intros m m' a bs Hsub Hl; simpl in *; [exact Hl|].
  destruct (m !! a) as [b|] eqn:Hb; [|discriminate].
  destruct (load_bytes m (a + 1) n) as [bs'|] eqn:Hbs; [|discriminate].
  now rewrite (Hsub a b Hb), (IH m m' (a + 1) bs' Hsub Hbs).
Qed.

Lemma load_bytes_unmapped (m : gmap Z byte) (a : Z) (n : nat) :
  m !! a = None -> (0 < n)%nat -> load_bytes m a n = None.
Proof. intros Ha Hn. destruct n; [lia|]. simpl. now rewrite Ha. Qed.

Lemma store_bytes_unmapped (m : gmap Z byte) (a : Z) (bs : list byte) :
  m !! a = None -> (0 < length bs)%nat -> store_bytes m a bs = None.
Proof. intros Ha Hn. destruct bs; simpl in *; [lia|]. now rewrite Ha. Qed.

(** X9.  Constructing an owning array leaves everything that existed
    before as it was: every byte of storage, every live block and the
    release log, so every object that could be read before the
    construction reads the same after it. *)
Theorem allocation_preserves_existing_storage :
  forall (T : Type) `{ElemLaws T} (al : allocator) (n : Z) (h h1 : Heap)
         (a : array.t T),
    0 <= n ->
    array.new_ al n h = Some (a, h1) ->
    (forall x b, storage h !! x = Some b -> storage h1 !! x = Some b)
    /\ (forall q len, blocks h !! q = Some len -> blocks h1 !! q = Some len)
    /\ released h1 = released h
    /\ (forall (U : Type) `{Elem U} (addr : Z) (v : U),
          load U h addr = Some v -> load U h1 addr = Some v).
Proof.
  intros T HT HL al n h h1 a Hn Hnew.
  destruct (array_new_spec al n h h1 a Hn Hnew) as [_ Hp].
  pose proof (new_array_fresh al n h h1 _ Hp) as Hfresh.
  destruct (new_array_spec al n h h1 _ Hn Hp)
    as (_ & _ & _ & Hb & Hr & Hnone & Hout & _).
  assert (Hsub : forall x b, storage h !! x = Some b ->
                             storage h1 !! x = Some b).
  { intros x b Hx. rewrite Hout; [exact Hx|].
    exact (fresh_outside h _ _ x b Hfresh Hx). }
  split; [exact Hsub|]. split; [|split; [exact Hr|]].
  - intros q len Hq. rewrite Hb. rewrite lookup_insert_ne; [exact Hq|].
    intros <-. congruence.
  - intros U HU addr v. unfold load.
    destruct (load_bytes (storage h) addr (Z.to_nat sizeof)) as [bs|] eqn:Hl;
      [|discriminate].
    now rewrite (load_bytes_mono _ _ _ _ _ Hsub Hl).
Qed.

Lemma allocation_preserves_existing_storage_witness :
  match array.new_ (T := uint16) bump 3 empty_heap with
  | Some (a0, h0) =>
      match array.new_ (T := uchar) bump 2 h0 with
      | Some (a, h1) =>
          load uint16 h1 18 = Some (U16 xaa xaa) /\ released h1 = released h0
      | None => False
      end
  | None => False
  end.
Proof.
  destruct (array.new_ (T := uint16) bump 3 empty_heap) as [[a0 h0]|] eqn:E0;
    [|vm_compute in E0; discriminate E0].
  destruct (array.new_ (T := uchar) bump 2 h0) as [[a h1]|] eqn:E.
  - destruct (allocation_preserves_existing_storage uchar bump 2 h0 h1 a)
      as (_ & _ & Hr & Hl); [lia | exact E |].
    split; [|exact Hr]. apply Hl.
    vm_compute in E0. injection E0 as <- <-. vm_compute. reflexivity.
  - vm_compute in E0. injection E0 as <- <-.
    vm_compute in E. discriminate E.
Defined.

(** X11.  Views do not keep storage alive: once the owning array has been
    destroyed, reading or writing any of its elements -- through the array
    object or through a view taken from it -- has no defined result. *)
Theorem no_access_after_destruction :
  forall (T : Type) `{ElemLaws T} (al : allocator) (n : Z) (h h1 h2 h3 : Heap)
         (a : array.t T),
    0 <= n ->
    array.new_ al n h = Some (a, h1) ->
    blocks h2 !! ptr.addr (array.begin a) = Some (sizeof * n) ->
    array.destroy a h2 = Some h3 ->
    let view := array_view.mk (array.begin a) (array.size a) in
    let cview :=
      const_array_view.mk (to_const (array.begin a)) (array.size a) in
    forall i, 0 <= i < n ->
      array.index a i h3 = None
      /\ (forall v, array.index_set a i v h3 = None)
      /\ array_base.index view i h3 = None
      /\ (forall v, array_base.index_set view i v h3 = None)
      /\ const_array_base.index cview i h3 = None.
Proof.
  intros T HT HL al n h h1 h2 h3 a Hn Hnew Hlive Hdes view cview i Hi.
  pose proof sizeof_pos as Hs.
  destruct (array_new_spec al n h h1 a Hn Hnew) as [Ha Hp].
  destruct (new_array_spec al n h h1 _ Hn Hp) as (Hpos & Hend & _).
  set (p := ptr.addr (array.begin a)) in *.
  assert (Hbase : array.begin a = ptr.mk p)
    by (unfold p; now destruct (array.begin a)).
  assert (Hgone : storage h3 !! (p + sizeof * i) = None).
  { unfold array.destroy in Hdes. fold (array.begin a) in Hdes.
    rewrite (delete_array_live h2 (array.begin a) (sizeof * n)) in Hdes;
      [|fold p; lia | exact Hlive].
    injection Hdes as <-. cbn [storage]. fold p.
    apply unmap_bytes_in. nia. }
  destruct (elem_addr p n i) as (Haddr & _ & _); [lia | exact Hend | exact Hi |].
  assert (Hload : load T h3 (p + sizeof * i) = None).
  { unfold load. rewrite load_bytes_unmapped; [reflexivity | exact Hgone | lia]. }
  assert (Hstore : forall v : T, store h3 (p + sizeof * i) v = None).
  { intros v. unfold store.
    rewrite store_bytes_unmapped; [reflexivity | exact Hgone |].
    rewrite encode_length_nat. lia. }
  assert (Hview : view = array.base a).
  { unfold view. now destruct a as [[q m]]. }
  rewrite Hview. unfold cview.
  unfold array.index, array.index_set, array_base.index,
    array_base.index_set, const_array_base.index.
  fold (array.begin a). rewrite Hbase. cbn.
  unfold ptr.index, ptr.index_set, ptr.deref, ptr.add, const_ptr.index,
    const_ptr.deref, const_ptr.add; cbn.
  rewrite Haddr, Hload. repeat split; intros; apply Hstore.
Qed.

Lemma no_access_after_destruction_witness :
  match array.new_ (T := uint16) bump 3 empty_heap with
  | Some (a, h1) =>
      match array.destroy a h1 with
      | Some h3 => array.index a 1 h3 = None
      | None => False
      end
  | None => False
  end.
Proof.
  destruct (array.new_ (T := uint16) bump 3 empty_heap) as [[a h1]|] eqn:E;
    [|vm_compute in E; discriminate E].
  destruct (array.destroy a h1) as [h3|] eqn:D.
  - apply (no_access_after_destruction uint16 bump 3 empty_heap h1 h1 h3 a);
      [lia | exact E | | exact D | lia].
    vm_compute in E. injection E as <- <-. reflexivity.
  - vm_compute in E. injection E as <- <-. vm_compute in D. discriminate D.
Defined.

Lemma new_array_keeps {T} `{ElemLaws T} (al : allocator) (n : Z)
  (h h1 : Heap) (p : ptr.t T) :
  0 <= n ->
  new_array al T n h = Some (p, h1) ->
  forall x b, storage h !! x = Some b -> storage h1 !! x = Some b.
Proof.
  intros Hn Hp x b Hx.
  pose proof (new_array_fresh al n h h1 _ Hp) as Hfresh.
  destruct (new_array_spec al n h h1 _ Hn Hp)
    as (_ & _ & _ & _ & _ & _ & Hout & _).
  rewrite Hout; [exact Hx|]. exact (fresh_outside h _ _ x b Hfresh Hx).
Qed.

(** Writing an element of one array of [T] leaves the elements of a
    disjoint array of [U] as they were. *)
Lemma ptr_write_elsewhere {T U : Type} `{ElemLaws T} `{ElemLaws U}
  (h : Heap) (p n i : Z) (v : T) (q m j : Z) :
  0 <= p -> p + sizeof (T := T) * n <= size_modulus ->
  valid_range h p (sizeof (T := T) * n) -> 0 <= i < n ->
  0 <= q -> q + sizeof (T := U) * m <= size_modulus -> 0 <= j < m ->
  (forall x, p <= x < p + sizeof (T := T) * n ->
             ~ (q <= x < q + sizeof (T := U) * m)) ->
  exists h',
    ptr.index_set (ptr.mk (T := T) p) i v h = Some h'
    /\ ptr.index (ptr.mk (T := T) p) i h' = Some (v, h')
    /\ value_of (ptr.index (ptr.mk (T := U) q) j h')
       = value_of (ptr.index (ptr.mk (T := U) q) j h).
Proof.
  intros Hp Hpn Hv Hi Hq Hqm Hj Hdis.
  destruct (elem_addr (T := T) p n i Hp Hpn Hi) as (Ha & Hlo & Hhi).
  destruct (elem_addr (T := U) q m j Hq Hqm Hj) as (Hb & Hlo' & Hhi').
  destruct (store_load h (p + sizeof (T := T) * i) v)
    as (h' & Hst & Hld & Hout & _).
  { intros x Hx. apply Hv. lia. }
  exists h'. split; [|split].
  - unfold ptr.index_set, ptr.add; cbn. now rewrite Ha.
  - unfold ptr.index, ptr.deref, ptr.add; cbn. now rewrite Ha, Hld.
  - unfold ptr.index, ptr.deref, ptr.add; cbn. rewrite Hb.
    rewrite (load_frame h h').
    + now destruct (load U h (q + sizeof * j)).
    + intros x Hx. apply Hout. intros Hin.
      apply (Hdis x); lia.
Qed.

Section TwoArrays.
Context {T U : Type} `{ElemLaws T} `{ElemLaws U}.

(** X10.  Two owning arrays constructed one after the other never share
    storage: their blocks start at different addresses and do not
    overlap, both stay readable, and a write to an element of either is
    read back there and leaves every element of the other unchanged. *)
Theorem arrays_do_not_alias :
  forall (al : allocator) (n m : Z) (h h1 h2 : Heap)
         (a : array.t T) (b : array.t U),
    0 <= n -> 0 <= m ->
    array.new_ al n h = Some (a, h1) ->
    array.new_ al m h1 = Some (b, h2) ->
    let p := ptr.addr (array.begin a) in
    let q := ptr.addr (array.begin b) in
    p <> q
    /\ (forall x, p <= x < p + sizeof (T := T) * n ->
                  ~ (q <= x < q + sizeof (T := U) * m))
    /\ valid_range h2 p (sizeof (T := T) * n)
    /\ valid_range h2 q (sizeof (T := U) * m)
    /\ (forall (h' : Heap) (i j : Z) (v : U),
          valid_range h' q (sizeof (T := U) * m) ->
          0 <= i < n -> 0 <= j < m ->
          exists h'',
            array.index_set b j v h' = Some h''
            /\ array.index b j h'' = Some (v, h'')
            /\ value_of (array.index a i h'') = value_of (array.index a i h'))
    /\ (forall (h' : Heap) (i j : Z) (v : T),
          valid_range h' p (sizeof (T := T) * n) ->
          0 <= i < n -> 0 <= j < m ->
          exists h'',
            array.index_set a i v h' = Some h''
            /\ array.index a i h'' = Some (v, h'')
            /\ value_of (array.index b j h'') = value_of (array.index b j h')).
Proof.
  intros al n m h h1 h2 a b Hn Hm Hnewa Hnewb p q.
  destruct (array_new_spec al n h h1 a Hn Hnewa) as [_ Hpa].
  destruct (array_new_spec al m h1 h2 b Hm Hnewb) as [_ Hpb].
  destruct (new_array_spec al n h h1 _ Hn Hpa)
    as (Hp0 & Hpn & Hva & Hba & _).
  destruct (new_array_spec al m h1 h2 _ Hm Hpb)
    as (Hq0 & Hqm & Hvb & _ & _ & Hnone & _).
  pose proof (new_array_fresh al m h1 h2 _ Hpb) as Hfresh.
  fold p in Hp0, Hpn, Hva, Hba. fold q in Hq0, Hqm, Hvb, Hnone, Hfresh.
  assert (Hbasea : array.begin a = ptr.mk p)
    by (unfold p; now destruct (array.begin a)).
  assert (Hbaseb : array.begin b = ptr.mk q)
    by (unfold q; now destruct (array.begin b)).
  assert (Hdis : forall x, p <= x < p + sizeof (T := T) * n ->
                           ~ (q <= x < q + sizeof (T := U) * m)).
  { intros x Hx. destruct (Hva x Hx) as [b0 Hb0].
    exact (fresh_outside h1 _ _ x b0 Hfresh Hb0). }
  split; [|split; [exact Hdis|split; [|split; [exact Hvb|split]]]].
  - intros Heq. rewrite Hba, <- Heq, lookup_insert_eq in Hnone.
    discriminate Hnone.
  - intros x Hx. destruct (Hva x Hx) as [b0 Hb0]. exists b0.
    exact (new_array_keeps al m h1 h2 _ Hm Hpb x b0 Hb0).
  - intros h' i j v Hv' Hi Hj.
    unfold array.index_set, array.index, array_base.index_set,
      array_base.index. fold (array.begin a) (array.begin b).
    rewrite Hbasea, Hbaseb.
    apply (ptr_write_elsewhere (T := U) (U := T) h' q m j v p n i);
      try lia; try assumption.
    intros x Hx Hin. exact (Hdis x Hin Hx).
  - intros h' i j v Hv' Hi Hj.
    unfold array.index_set, array.index, array_base.index_set,
      array_base.index. fold (array.begin a) (array.begin b).
    rewrite Hbasea, Hbaseb.
    apply (ptr_write_elsewhere (T := T) (U := U) h' p n i v q m j);
      try lia; assumption.
Qed.
End TwoArrays.

Lemma arrays_do_not_alias_witness :
  match array.new_ (T := uint16) bump 3 empty_heap with
  | Some (a, h1) =>
      match array.new_ (T := uchar) bump 2 h1 with
      | Some (b, h2) =>
          ptr.addr (array.begin a) <> ptr.addr (array.begin b)
          /\ exists h'',
               array.index_set b 1 x07 h2 = Some h''
               /\ value_of (array.index a 0 h'')
                  = value_of (array.index a 0 h2)
      | None => False
      end
  | None => False
  end.
Proof.
  destruct (array.new_ (T := uint16) bump 3 empty_heap) as [[a h1]|] eqn:E1;
    [|vm_compute in E1; discriminate E1].
  destruct (array.new_ (T := uchar) bump 2 h1) as [[b h2]|] eqn:E2.
  - destruct (arrays_do_not_alias bump 3 2 empty_heap h1 h2 a b)
      as (Hne & _ & _ & Hvb & Hw & _); [lia | lia | exact E1 | exact E2 |].
    split; [exact Hne|].
    destruct (Hw h2 0 1 x07 Hvb) as (h'' & Hs & _ & Hf); [lia | lia |].
    exists h''. split; [exact Hs | exact Hf].
  - vm_compute in E1. injection E1 as <- <-.
    vm_compute in E2. discriminate E2.
Defined.

(** ** Writing through a byte-stride sequence *)

Section ByteStride.
Context {T : Type} `{ElemLaws T}.

Lemma stride_addr (base B n i : Z) :
  0 <= base -> sizeof <= B -> base + B * n <= size_modulus -> 0 <= i < n ->
  wrap (base + wrap (B * i)) = base + B * i
  /\ base <= base + B * i
  /\ base + B * i + sizeof <= base + B * n.
Proof.
  intros Hb HB Hn Hi. pose proof sizeof_pos as Hs.
  assert (B * i + B <= B * n) by nia.
  assert (0 <= B * i) by nia.
  rewrite (wrap_small (B * i)) by lia.
  split; [apply wrap_small; lia | lia].
Qed.

(** X13.  Through a mutable byte-stride sequence whose byte offset is at
    least the element size, over valid storage that does not wrap: a value
    written at an index is read back there by both overloads of the
    indexing operator, and the elements at the other indices read as
    before. *)
Theorem byte_stride_elements_independent :
  forall (B base n i : Z) (v : T) (h : Heap),
    0 <= base -> sizeof <= B -> base + B * n <= size_modulus ->
    valid_range h base (B * n) -> 0 <= i < n ->
    let m : array_mem_stride.t T B :=
      array_mem_stride.mk (const_ptr.mk base) n in
    exists h',
      array_base.index_set (array_mem_stride.base m) i v h = Some h'
      /\ array_base.index (array_mem_stride.base m) i h' = Some (v, h')
      /\ array_base.cindex (array_mem_stride.base m) i h' = Some (v, h')
      /\ (forall j, 0 <= j < n -> j <> i ->
            value_of (array_base.index (array_mem_stride.base m) j h')
            = value_of (array_base.index (array_mem_stride.base m) j h))
      /\ valid_range h' base (B * n).
Proof.
  intros B base n i v h Hb HB Hn Hv Hi m. pose proof sizeof_pos as Hs.
  destruct (stride_addr base B n i Hb HB Hn Hi) as (Ha & Hlo & Hhi).
  destruct (store_load h (base + B * i) v)
    as (h' & Hst & Hld & Hout & Hsome & _).
  { intros x Hx. apply Hv. lia. }
  exists h'.
  unfold array_base.index_set, array_base.index, array_base.cindex,
    array_base.cbegin; cbn.
  unfold mem_stride_iterator.index_set, mem_stride_iterator.index,
    const_mem_stride_iterator.index; cbn.
  rewrite Ha, Hld. split; [exact Hst|]. split; [reflexivity|].
  split; [reflexivity|]. split.
  - intros j Hj Hne.
    destruct (stride_addr base B n j Hb HB Hn Hj) as (Haj & _ & _).
    rewrite Haj, (load_frame h h').
    + now destruct (load T h (base + B * j)).
    + intros x Hx. apply Hout. nia.
  - intros x Hx. apply Hsome, Hv, Hx.
Qed.
End ByteStride.

Lemma byte_stride_elements_independent_witness :
  let m : array_mem_stride.t uint16 4 :=
    array_mem_stride.mk (const_ptr.mk 16) 3 in
  exists h',
    array_base.index_set (array_mem_stride.base m) 1 (U16 xff xfe)
      example_heap = Some h'
    /\ array_base.index (array_mem_stride.base m) 1 h'
       = Some (U16 xff xfe, h')
    /\ value_of (array_base.index (array_mem_stride.base m) 2 h')
       = Some (U16 x09 x0a).
Proof.
  cbv zeta.
  destruct (byte_stride_elements_independent (T := uint16) 4 16 3 1
              (U16 xff xfe) example_heap)
    as (h' & Hs & Hr & _ & Hf & _); try range_conds.
  - intros x Hx.
    assert (Hc : x = 16 \/ x = 17 \/ x = 18 \/ x = 19 \/ x = 20 \/ x = 21
                 \/ x = 22 \/ x = 23 \/ x = 24 \/ x = 25 \/ x = 26 \/ x = 27)
      by lia.
    repeat (destruct Hc as [-> | Hc]); try subst x; vm_compute; eauto.
  - exists h'. split; [exact Hs|]. split; [exact Hr|].
    rewrite (Hf 2) by lia. vm_compute. reflexivity.
Defined.

(** ** Traversing a function sequence *)

Lemma index_from_func {Env R : Type} (f : Z -> Env -> R * Env) (n : nat) :
  forall (i : Z) (e : Env),
    0 <= i -> i + Z.of_nat n <= size_modulus ->
    index_from (func_array_iterator.mk f 0) i n e = Some (calls f i n e).
Proof.
  induction n as [|n IH]; intros i e Hi Hn; cbn [index_from calls];
    [reflexivity|].
  cbn [index func_cursor]. unfold func_array_iterator.index; cbn.
  rewrite Z.add_0_l, wrap_small by (unfold is_size_t; lia).
  destruct (f i e) as [r e'].
  rewrite IH by lia. now destruct (calls f (i + 1) n e').
Qed.

(** X14.  Traversing a function sequence of length [n] invokes the
    callable on 0, 1, ..., [n - 1], once each and in this order, each
    invocation in the environment the previous one left. *)
Theorem func_array_traversal_calls :
  forall (Env R : Type) (f : Z -> Env -> R * Env) (n : Z) (e : Env)
         (fuel : nat),
    0 <= n < size_modulus -> (Z.to_nat n < fuel)%nat ->
    let s := func_array.mk f n in
    exists l,
      walk fuel (const_array_base.begin s) (const_array_base.end_ s) = Some l
      /\ Z.of_nat (length l) = n
      /\ deref_all l e = Some (calls f 0 (Z.to_nat n) e).
Proof.
  intros Env R f n e fuel Hn Hf s.
  destruct (walk_add (const_array_base.begin s) n) with (fuel := fuel)
    as (l & Hl & Hlen & ->); try (cbn; lia); try range_conds.
  eexists. split; [exact Hl|]. split; [exact Hlen|].
  change (const_array_base.begin s)
    with (add (func_array_iterator.mk f 0) 0).
  rewrite deref_all_iterates. apply index_from_func; lia.
Qed.

Lemma func_array_traversal_calls_witness :
  let s := func_array.mk (fun (i : Z) (e : Z) => (10 * i + e, e + 1)) 3 in
  exists l,
    walk 4 (const_array_base.begin s) (const_array_base.end_ s) = Some l
    /\ deref_all l 0 = Some ([0; 11; 22], 3).
Proof.
  cbv zeta.
  destruct (func_array_traversal_calls Z Z
              (fun (i : Z) (e : Z) => (10 * i + e, e + 1)) 3 0 4%nat)
    as (l & Hl & _ & Hd); try range_conds.
  exists l. split; [exact Hl | exact Hd].
Defined.

(** ** Independent lifetimes *)

Section TwoLifetimes.
Context {T U : Type} `{ElemLaws T} `{ElemLaws U}.

(** X15.  Of two owning arrays, destroying the one constructed first
    releases its block only: every element of the other reads as before,
    the other's block stays live, and the other can then be destroyed in
    turn, after which the release log holds the two blocks, each once. *)
Theorem destruction_leaves_other_arrays :
  forall (al : allocator) (n m : Z) (h h1 h2 : Heap)
         (a : array.t T) (b : array.t U),
    0 <= n -> 0 <= m ->
    array.new_ al n h = Some (a, h1) ->
    array.new_ al m h1 = Some (b, h2) ->
    let p := ptr.addr (array.begin a) in
    let q := ptr.addr (array.begin b) in
    exists h3 h4,
      array.destroy a h2 = Some h3
      /\ (forall j, 0 <= j < m ->
            exists v, array.index b j h3 = Some (v, h3)
                      /\ array.index b j h2 = Some (v, h2))
      /\ blocks h3 !! q = Some (sizeof (T := U) * m)
      /\ array.destroy b h3 = Some h4
      /\ released h4 = q :: p :: released h
      /\ blocks h4 = blocks h.
Proof.
  intros al n m h h1 h2 a b Hn Hm Hnewa Hnewb p q.
  destruct (array_new_spec al n h h1 a Hn Hnewa) as [_ Hpa].
  destruct (array_new_spec al m h1 h2 b Hm Hnewb) as [_ Hpb].
  destruct (new_array_spec al n h h1 _ Hn Hpa)
    as (Hp0 & Hpn & Hva & Hba & Hra & Hnonea & _).
  destruct (new_array_spec al m h1 h2 _ Hm Hpb)
    as (Hq0 & Hqm & Hvb & Hbb & Hrb & Hnoneb & _).
  pose proof (new_array_fresh al m h1 h2 _ Hpb) as Hfresh.
  fold p in Hp0, Hpn, Hva, Hba, Hnonea.
  fold q in Hq0, Hqm, Hvb, Hbb, Hnoneb, Hfresh.
  assert (Hbaseb : array.begin b = ptr.mk q)
    by (unfold q; now destruct (array.begin b)).
  assert (Hne : p <> q).
  { intros Heq. rewrite Hba, <- Heq, lookup_insert_eq in Hnoneb.
    discriminate Hnoneb. }
  assert (Hdis : forall x, q <= x < q + sizeof (T := U) * m ->
                           ~ (p <= x < p + sizeof (T := T) * n)).
  { intros x Hx Hin. destruct (Hva x Hin) as [b0 Hb0].
    exact (fresh_outside h1 _ _ x b0 Hfresh Hb0 Hx). }
  assert (Hlivea : blocks h2 !! p = Some (sizeof (T := T) * n)).
  { rewrite Hbb, lookup_insert_ne by congruence.
    rewrite Hba. apply lookup_insert_eq. }
  set (h3 := mkHeap (unmap_bytes (storage h2) p
                       (Z.to_nat (sizeof (T := T) * n)))
                    (delete p (blocks h2)) (p :: released h2)).
  assert (Hda : array.destroy a h2 = Some h3).
  { unfold array.destroy. fold (array.begin a).
    rewrite (delete_array_live h2 (array.begin a) (sizeof (T := T) * n));
      [reflexivity | fold p; lia | exact Hlivea]. }
  assert (Hliveb : blocks h3 !! q = Some (sizeof (T := U) * m)).
  { cbn [h3 blocks]. rewrite lookup_delete_ne by congruence.
    rewrite Hbb. apply lookup_insert_eq. }
  set (h4 := mkHeap (unmap_bytes (storage h3) q
                       (Z.to_nat (sizeof (T := U) * m)))
                    (delete q (blocks h3)) (q :: released h3)).
  assert (Hdb : array.destroy b h3 = Some h4).
  { unfold array.destroy. fold (array.begin b).
    rewrite (delete_array_live h3 (array.begin b) (sizeof (T := U) * m));
      [reflexivity | fold q; lia | exact Hliveb]. }
  exists h3, h4. split; [exact Hda|]. split; [|split; [exact Hliveb|]].
  - intros j Hj.
    destruct (ptr_read h2 q m j) as (v & Hr & Hl); try assumption; try lia.
    destruct (elem_addr (T := U) q m j) as (Haj & Hlo & Hhi);
      try assumption; try lia.
    assert (Hl3 : load U h3 (q + sizeof * j) = Some v).
    { rewrite (load_frame h2 h3); [exact Hl|].
      intros x Hx. unfold h3; cbn [storage]. apply unmap_bytes_out.
      intros Hin. apply (Hdis x); lia. }
    exists v. unfold array.index, array_base.index. fold (array.begin b).
    rewrite Hbaseb. split; [|exact Hr].
    change (ptr.index (ptr.mk q) j h3 = Some (v, h3)).
    unfold ptr.index, ptr.deref, ptr.add.
    change (ptr.addr (ptr.mk q)) with q.
    change (ptr.addr (ptr.mk (wrap (q + sizeof * j))))
      with (wrap (q + sizeof * j)).
    now rewrite Haj, Hl3.
  - split; [exact Hdb|]. split.
    + cbn [h4 h3 released]. now rewrite Hrb, Hra.
    + assert (Hnoneq : blocks h !! q = None).
      { rewrite Hba, lookup_insert_ne in Hnoneb by congruence.
        exact Hnoneb. }
      cbn [h4 h3 blocks]. rewrite Hbb, Hba.
      apply map_eq. intros k.
      destruct (decide (k = q)) as [->|Hkq].
      * now rewrite lookup_delete_eq, Hnoneq.
      * rewrite lookup_delete_ne by congruence.
        destruct (decide (k = p)) as [->|Hkp].
        -- now rewrite lookup_delete_eq, Hnonea.
        -- now rewrite lookup_delete_ne, !lookup_insert_ne by congruence.
Qed.
End TwoLifetimes.

Lemma destruction_leaves_other_arrays_witness :
  match array.new_ (T := uint16) bump 3 empty_heap with
  | Some (a, h1) =>
      match array.new_ (T := uchar) bump 2 h1 with
      | Some (b, h2) =>
          exists h3 h4,
            array.destroy a h2 = Some h3
            /\ array.destroy b h3 = Some h4
            /\ blocks h4 = blocks empty_heap
      | None => False
      end
  | None => False
  end.
Proof.
  destruct (array.new_ (T := uint16) bump 3 empty_heap) as [[a h1]|] eqn:E1;
    [|vm_compute in E1; discriminate E1].
  destruct (array.new_ (T := uchar) bump 2 h1) as [[b h2]|] eqn:E2.
  - destruct (destruction_leaves_other_arrays bump 3 2 empty_heap h1 h2 a b)
      as (h3 & h4 & Ha & _ & _ & Hb & _ & Hblk);
      [lia | lia | exact E1 | exact E2 |].
    exists h3, h4. split; [exact Ha|]. split; [exact Hb | exact Hblk].
  - vm_compute in E1. injection E1 as <- <-.
    vm_compute in E2. discriminate E2.
Defined.
